(** * A generic set in two variants: a shallow embedding of package [set]

    The package stores a set as a Go map from the element type to the
    empty struct.  [set.go] declares the interface [Set], the constructor
    [New] and the algebra ([Union], [Difference], [Intersection],
    [SymmetricDifference]); [set_nots.go] holds the methods of the base
    struct [set], which [SetNonTS] inherits unchanged; [set_ts.go] holds
    [SetTS], which guards the same storage with a [sync.RWMutex].

    Sets are heap objects handled through pointers, so the embedding
    threads a heap through every call.  Each access to the field [m] and
    each mutex operation is also appended to a trace, so that the locking
    discipline of [SetTS] can be read off an execution. *)

From Stdlib Require Import ZArith.
From stdpp Require Import base option list gmap fin_maps.

Open Scope Z_scope.

Set Warnings "-clear-no-such-hyp".

(** ** [set.go]: the kind of set to create *)

(** [type SetType int], with [ThreadSafe = iota] and [NonThreadSafe] next. *)
Definition SetType := Z.
Definition ThreadSafe : SetType := 0.
Definition NonThreadSafe : SetType := 1.

(** The dynamic type behind a value of the interface [Set]: a pointer to
    a [SetNonTS], to a [SetTS], or to the bare embedded struct [set]
    (which is what [IsSuperset] passes on as its receiver). *)
Inductive impl := SetNonTS | SetTS | set_base.

Global Instance impl_eq_dec : EqDecision impl.
Proof. solve_decision. Defined.

(** A value of the interface [Set]: dynamic type and address. *)
Record Set_ := { dyn : impl; ptr : nat }.

Global Instance Set_eq_dec : EqDecision Set_.
Proof. solve_decision. Defined.

(** ** The mutex *)

(** The state of a [sync.RWMutex] as one thread sees it: whether the
    exclusive lock is taken, and how many shared locks are. *)
Record RWMutex := { writer : bool; readers : nat }.

Definition unlocked : RWMutex := {| writer := false; readers := 0 |}.

Global Instance RWMutex_eq_dec : EqDecision RWMutex.
Proof. solve_decision. Defined.

(** What an execution does to the storage and to the mutexes, in order. *)
Inductive event :=
  | EvLock (p : nat)
  | EvUnlock (p : nat)
  | EvRLock (p : nat)
  | EvRUnlock (p : nat)
  | EvLoad (p : nat)
  | EvStore (p : nat).

Global Instance event_eq_dec : EqDecision event.
Proof. solve_decision. Defined.

(** ** What the language leaves to the element type and to the runtime *)

(** [var zeroVal T]: the zero value of the element type. *)
Class ZeroValue (T : Type) := zeroVal : T.

(** The order in which [for item := range s.m] produces the keys.  Go
    leaves it unspecified and lets it change from one loop to the next;
    the first argument is the length of the trace when the loop starts,
    which is different for any two loops of one execution. *)
Class RangeOrder (T : Type) `{Countable T} :=
  range_keys : nat → gmap T () → list T.

Section Set_.

Context {T : Type} {EqT : EqDecision T} {CountT : Countable T}.
Context {ZeroT : ZeroValue T} {OrderT : RangeOrder T}.

(** [var keyExists = struct{}{}] *)
Definition keyExists : () := tt.

(** The memory of one set: the field [m] of the embedded [set], and the
    field [l] of [SetTS] (never touched on an object made by [newNonTS]). *)
Record object := { m : gmap T (); l : RWMutex }.

Definition set_m (mp : gmap T ()) (o : object) : object :=
  {| m := mp; l := l o |}.

Definition set_l (k : RWMutex) (o : object) : object :=
  {| m := m o; l := k |}.

(** The heap is a list of objects, an address is an index into it, and
    allocation appends: nothing is ever freed. *)
Record state := { heap : list object; trace : list event }.

Definition initial : state := {| heap := []; trace := [] |}.

(** An execution returns, blocks for ever on a mutex (there is one
    thread), or panics on an address that is not allocated or on a mutex
    released without being held. *)
Inductive outcome (A : Type) :=
  | Ret (a : A) (st : state)
  | Blocked
  | Panic.
Global Arguments Ret {A} a st.
Global Arguments Blocked {A}.
Global Arguments Panic {A}.

Definition M (A : Type) := state → outcome A.

Definition ret {A} (a : A) : M A := λ st, Ret a st.

Definition bind {A B} (c : M A) (k : A → M B) : M B :=
  λ st, match c st with
        | Ret a st' => k a st'
        | Blocked => Blocked
        | Panic => Panic
        end.

Notation "x <- c ;; k" := (bind c (λ x, k))
  (at level 100, c at next level, right associativity).
Notation "c ;;; k" := (bind c (λ _, k))
  (at level 100, right associativity).

(** [for _, x := range xs { body x }] over a slice. *)
Fixpoint for_each {A} (body : A → M ()) (xs : list A) : M () :=
  match xs with
  | [] => ret tt
  | x :: xs' => body x ;;; for_each body xs'
  end.

(** *** Memory primitives *)

Definition emit (e : event) : M () :=
  λ st, Ret tt {| heap := heap st; trace := trace st ++ [e] |}.

Definition deref (p : nat) : M object :=
  λ st, match heap st !! p with
        | Some o => Ret o st
        | None => Panic
        end.

Definition assign (p : nat) (o : object) : M () :=
  λ st, Ret tt {| heap := <[p := o]> (heap st); trace := trace st |}.

Definition alloc (o : object) : M nat :=
  λ st, Ret (length (heap st))
            {| heap := heap st ++ [o]; trace := trace st |}.

(** A read of [s.m]: a lookup, [len], or the start of a [range]. *)
Definition load_m (p : nat) : M (gmap T ()) :=
  emit (EvLoad p) ;;; o <- deref p ;; ret (m o).

(** A write to [s.m]: an insertion, a [delete], or a new map. *)
Definition store_m (p : nat) (f : gmap T () → gmap T ()) : M () :=
  emit (EvStore p) ;;; o <- deref p ;; assign p (set_m (f (m o)) o).

(** The keys of [s.m] in the order this loop visits them.  No loop of
    the package inserts a new key into, or deletes a key from, the map
    it is ranging over and then goes on, so the keys are taken once. *)
Definition range_m (p : nat) : M (list T) :=
  λ st, (mp <- load_m p ;; ret (range_keys (length (trace st)) mp)) st.

(** *** The mutex operations on the field [l] of the object at [p]

    [Lock] waits until no lock is held, [RLock] while the exclusive lock
    is held; with one thread, a call that has to wait waits for ever.
    Releasing a lock that is not held is a fatal error of the runtime. *)

Definition Lock (p : nat) : M () :=
  o <- deref p ;;
  if writer (l o) || negb (Nat.eqb (readers (l o)) 0) then λ _, Blocked
  else assign p (set_l {| writer := true; readers := readers (l o) |} o) ;;;
       emit (EvLock p).

Definition Unlock (p : nat) : M () :=
  o <- deref p ;;
  if writer (l o)
  then assign p (set_l {| writer := false; readers := readers (l o) |} o) ;;;
       emit (EvUnlock p)
  else λ _, Panic.

Definition RLock (p : nat) : M () :=
  o <- deref p ;;
  if writer (l o) then λ _, Blocked
  else assign p (set_l {| writer := false; readers := S (readers (l o)) |} o) ;;;
       emit (EvRLock p).

Definition RUnlock (p : nat) : M () :=
  o <- deref p ;;
  match readers (l o) with
  | O => λ _, Panic
  | S n => assign p (set_l {| writer := writer (l o); readers := n |} o) ;;;
           emit (EvRUnlock p)
  end.

(** ** [set_nots.go] and [set_ts.go]: constructors *)

(** [s := &SetNonTS[T]{}; s.m = make(map[T]struct{})]: the object is
    allocated with an empty map; nothing else can reach it before the
    constructor returns, and its initialisation is not traced. *)
Definition newNonTS : M Set_ :=
  s <- alloc {| m := ∅; l := unlocked |} ;;
  ret {| dyn := SetNonTS; ptr := s |}.

Definition newTS : M Set_ :=
  s <- alloc {| m := ∅; l := unlocked |} ;;
  ret {| dyn := SetTS; ptr := s |}.

(** ** [set_nots.go]: the methods of [*set], receiver at address [s] *)

Definition set_Add (s : nat) (items : list T) : M () :=
  if Nat.eqb (length items) 0 then ret tt
  else for_each (λ item, store_m s (insert item keyExists)) items.

Definition set_Remove (s : nat) (items : list T) : M () :=
  if Nat.eqb (length items) 0 then ret tt
  else for_each (λ item, store_m s (delete item)) items.

Definition set_Pop (s : nat) : M (T * bool) :=
  keys <- range_m s ;;
  match keys with
  | item :: _ => store_m s (delete item) ;;; ret (item, true)
  | [] => ret (zeroVal, false)
  end.

(** The loop of [Has]: [has] is assigned at every item and the loop
    breaks at the first item that is missing. *)
Fixpoint Has_loop (s : nat) (items : list T) (has : bool) : M bool :=
  match items with
  | [] => ret has
  | item :: items' =>
      mp <- load_m s ;;
      let has := bool_decide (is_Some (mp !! item)) in
      if negb has then ret has else Has_loop s items' has
  end.

Definition set_Has (s : nat) (items : list T) : M bool :=
  if Nat.eqb (length items) 0 then ret false
  else Has_loop s items true.

(** [len] of a map is an [int]; a map that fits in memory has fewer
    than 2^63 entries, so no wrap-around is written out. *)
Definition set_Size (s : nat) : M Z :=
  mp <- load_m s ;; ret (Z.of_nat (size mp)).

Definition set_Clear (s : nat) : M () :=
  store_m s (λ _, ∅).

Definition set_IsEmpty (s : nat) : M bool :=
  n <- set_Size s ;; ret (n =? 0).

(** The loop of [Each].  The variables a closure captures and assigns
    are passed along as [acc]; the closure returns them with its result. *)
Fixpoint Each_loop {L} (f : T → L → M (L * bool)) (keys : list T) (acc : L)
  : M L :=
  match keys with
  | [] => ret acc
  | item :: keys' =>
      r <- f item acc ;;
      if negb r.2 then ret r.1 else Each_loop f keys' r.1
  end.

Definition set_Each {L} (s : nat) (f : T → L → M (L * bool)) (acc : L) : M L :=
  keys <- range_m s ;; Each_loop f keys acc.

(** [make([]T, 0, len(s.m))] reads the map for the capacity of the
    slice, which is not part of the value of the slice. *)
Definition set_List (s : nat) : M (list T) :=
  mp <- load_m s ;;
  let list := ([] : list T) in
  keys <- range_m s ;;
  ret (foldl (λ list item, list ++ [item]) list keys).

Definition set_Copy (s : nat) : M Set_ :=
  u <- newNonTS ;;
  keys <- range_m s ;;
  for_each (λ item, set_Add (ptr u) [item]) keys ;;;
  ret u.

(** ** [set_ts.go]: the methods of [*SetTS], receiver at address [s].
    A deferred call is written where it runs, before the result is
    returned. *)

Definition SetTS_Add (s : nat) (items : list T) : M () :=
  if Nat.eqb (length items) 0 then ret tt
  else
    Lock s ;;;
    for_each (λ item, store_m s (insert item keyExists)) items ;;;
    Unlock s.

Definition SetTS_Remove (s : nat) (items : list T) : M () :=
  if Nat.eqb (length items) 0 then ret tt
  else
    Lock s ;;;
    for_each (λ item, store_m s (delete item)) items ;;;
    Unlock s.

Definition SetTS_Pop (s : nat) : M (T * bool) :=
  RLock s ;;;
  keys <- range_m s ;;
  match keys with
  | item :: _ =>
      RUnlock s ;;;
      Lock s ;;;
      store_m s (delete item) ;;;
      Unlock s ;;;
      ret (item, true)
  | [] =>
      RUnlock s ;;;
      ret (zeroVal, false)
  end.

Definition SetTS_Has (s : nat) (items : list T) : M bool :=
  if Nat.eqb (length items) 0 then ret false
  else
    RLock s ;;;
    has <- Has_loop s items true ;;
    RUnlock s ;;;
    ret has.

Definition SetTS_Size (s : nat) : M Z :=
  RLock s ;;;
  mp <- load_m s ;;
  let l := Z.of_nat (size mp) in
  RUnlock s ;;;
  ret l.

Definition SetTS_Clear (s : nat) : M () :=
  Lock s ;;;
  store_m s (λ _, ∅) ;;;
  Unlock s.

Definition SetTS_Each {L} (s : nat) (f : T → L → M (L * bool)) (acc : L)
  : M L :=
  RLock s ;;;
  keys <- range_m s ;;
  acc' <- Each_loop f keys acc ;;
  RUnlock s ;;;
  ret acc'.

Definition SetTS_List (s : nat) : M (list T) :=
  RLock s ;;;
  mp <- load_m s ;;
  let list := ([] : list T) in
  keys <- range_m s ;;
  let list := foldl (λ list item, list ++ [item]) list keys in
  RUnlock s ;;;
  ret list.

Definition SetTS_Copy (s : nat) : M Set_ :=
  u <- newTS ;;
  keys <- range_m s ;;
  for_each (λ item, SetTS_Add (ptr u) [item]) keys ;;;
  ret u.

(** ** Calls through the interface [Set]

    [SetNonTS] embeds [set] and declares no method; [SetTS] embeds [set]
    and declares [Add], [Remove], [Pop], [Has], [Size], [Clear],
    [IsEqual], [IsSubset], [Each], [List], [Copy] and [Merge], so its
    [IsEmpty], [IsSuperset], [String] and [Separate] are those of [set]. *)

Definition Add (x : Set_) (items : list T) : M () :=
  match dyn x with
  | SetTS => SetTS_Add (ptr x) items
  | _ => set_Add (ptr x) items
  end.

Definition Remove (x : Set_) (items : list T) : M () :=
  match dyn x with
  | SetTS => SetTS_Remove (ptr x) items
  | _ => set_Remove (ptr x) items
  end.

Definition Pop (x : Set_) : M (T * bool) :=
  match dyn x with
  | SetTS => SetTS_Pop (ptr x)
  | _ => set_Pop (ptr x)
  end.

Definition Has (x : Set_) (items : list T) : M bool :=
  match dyn x with
  | SetTS => SetTS_Has (ptr x) items
  | _ => set_Has (ptr x) items
  end.

Definition Size (x : Set_) : M Z :=
  match dyn x with
  | SetTS => SetTS_Size (ptr x)
  | _ => set_Size (ptr x)
  end.

Definition Clear (x : Set_) : M () :=
  match dyn x with
  | SetTS => SetTS_Clear (ptr x)
  | _ => set_Clear (ptr x)
  end.

Definition IsEmpty (x : Set_) : M bool := set_IsEmpty (ptr x).

Definition Each {L} (x : Set_) (f : T → L → M (L * bool)) (acc : L) : M L :=
  match dyn x with
  | SetTS => SetTS_Each (ptr x) f acc
  | _ => set_Each (ptr x) f acc
  end.

Definition List (x : Set_) : M (list T) :=
  match dyn x with
  | SetTS => SetTS_List (ptr x)
  | _ => set_List (ptr x)
  end.

Definition Copy (x : Set_) : M Set_ :=
  match dyn x with
  | SetTS => SetTS_Copy (ptr x)
  | _ => set_Copy (ptr x)
  end.

(** *** Methods that take another set

    [t.(RWLockable)] in [set.IsEqual] asks for the methods [Lock],
    [Unlock], [RLock] and [RUnlock].  [SetTS] keeps its mutex in the
    named field [l] and declares none of them, so no set of this package
    passes the assertion. *)
Definition RWLockable (t : Set_) : bool :=
  match dyn t with
  | SetNonTS => false
  | SetTS => false
  | set_base => false
  end.

Definition set_IsEqual (s : nat) (t : Set_) : M bool :=
  (if RWLockable t then RLock (ptr t) else ret tt) ;;;
  r <- (mp <- load_m s ;;
        n <- Size t ;;
        let sameSize := Z.of_nat (size mp) =? n in
        if negb sameSize then ret false
        else
          Each t (λ item (equal : bool),
                    mp <- load_m s ;;
                    let equal := bool_decide (is_Some (mp !! item)) in
                    ret (equal, equal)) true) ;;
  (if RWLockable t then RUnlock (ptr t) else ret tt) ;;;
  ret r.

Definition SetTS_IsEqual (s : nat) (t : Set_) : M bool :=
  RLock s ;;;
  (if decide (dyn t = SetTS) then RLock (ptr t) else ret tt) ;;;
  r <- (mp <- load_m s ;;
        n <- Size t ;;
        let sameSize := Z.of_nat (size mp) =? n in
        if negb sameSize then ret false
        else
          Each t (λ item (equal : bool),
                    mp <- load_m s ;;
                    let equal := bool_decide (is_Some (mp !! item)) in
                    ret (equal, equal)) true) ;;
  (if decide (dyn t = SetTS) then RUnlock (ptr t) else ret tt) ;;;
  RUnlock s ;;;
  ret r.

Definition IsEqual (x t : Set_) : M bool :=
  match dyn x with
  | SetTS => SetTS_IsEqual (ptr x) t
  | _ => set_IsEqual (ptr x) t
  end.

Definition set_IsSubset (s : nat) (t : Set_) : M bool :=
  Each t (λ item (subset : bool),
            mp <- load_m s ;;
            let subset := bool_decide (is_Some (mp !! item)) in
            ret (subset, subset)) true.

Definition SetTS_IsSubset (s : nat) (t : Set_) : M bool :=
  RLock s ;;;
  subset <- Each t (λ item (subset : bool),
                      mp <- load_m s ;;
                      let subset := bool_decide (is_Some (mp !! item)) in
                      ret (subset, subset)) true ;;
  RUnlock s ;;;
  ret subset.

Definition IsSubset (x t : Set_) : M bool :=
  match dyn x with
  | SetTS => SetTS_IsSubset (ptr x) t
  | _ => set_IsSubset (ptr x) t
  end.

(** [t.IsSubset(s)] with [s] the receiver, a [*set]. *)
Definition set_IsSuperset (s : nat) (t : Set_) : M bool :=
  IsSubset t {| dyn := set_base; ptr := s |}.

Definition IsSuperset (x t : Set_) : M bool := set_IsSuperset (ptr x) t.

Definition set_Merge (s : nat) (t : Set_) : M () :=
  Each t (λ item (_ : ()),
            store_m s (insert item keyExists) ;;; ret (tt, true)) tt.

Definition SetTS_Merge (s : nat) (t : Set_) : M () :=
  Lock s ;;;
  Each t (λ item (_ : ()),
            store_m s (insert item keyExists) ;;; ret (tt, true)) tt ;;;
  Unlock s.

Definition Merge (x t : Set_) : M () :=
  match dyn x with
  | SetTS => SetTS_Merge (ptr x) t
  | _ => set_Merge (ptr x) t
  end.

Definition set_Separate (s : nat) (t : Set_) : M () :=
  items <- List t ;; set_Remove s items.

Definition Separate (x t : Set_) : M () := set_Separate (ptr x) t.

(** ** [set.go]: constructor and algebra *)

Definition New (setType : SetType) : M Set_ :=
  if setType =? NonThreadSafe then newNonTS else newTS.

Definition Union (set1 set2 : Set_) (sets : list Set_) : M Set_ :=
  u <- Copy set1 ;;
  Each set2 (λ item (_ : ()), Add u [item] ;;; ret (tt, true)) tt ;;;
  for_each (λ set,
              Each set (λ item (_ : ()), Add u [item] ;;; ret (tt, true)) tt)
           sets ;;;
  ret u.

Definition Difference (set1 set2 : Set_) (sets : list Set_) : M Set_ :=
  s <- Copy set1 ;;
  Separate s set2 ;;;
  for_each (λ set, Separate s set) sets ;;;
  ret s.

Definition Intersection (set1 set2 : Set_) (sets : list Set_) : M Set_ :=
  all <- Union set1 set2 sets ;;
  result <- Union set1 set2 sets ;;
  Each all (λ item (_ : ()),
              missing <- (h1 <- Has set1 [item] ;;
                          if negb h1 then ret true
                          else h2 <- Has set2 [item] ;; ret (negb h2)) ;;
              (if missing then Remove result [item] else ret tt) ;;;
              for_each (λ set,
                          h <- Has set [item] ;;
                          if negb h then Remove result [item] else ret tt)
                       sets ;;;
              ret (tt, true)) tt ;;;
  ret result.

Definition SymmetricDifference (s t : Set_) : M Set_ :=
  u <- Difference s t [] ;;
  v <- Difference t s [] ;;
  Union u v [].

(** ** Reading an execution *)

(** The elements of the set [x] in the state [st]: the keys of its map. *)
Definition elems (st : state) (x : Set_) : gset T :=
  match heap st !! ptr x with
  | Some o => dom (m o)
  | None => ∅
  end.

(** [x] points to an allocated object. *)
Definition live (st : state) (x : Set_) : Prop :=
  (ptr x < length (heap st))%nat.

(** No mutex is held: the state between two calls of one thread. *)
Definition quiet (st : state) : Prop :=
  Forall (λ o, l o = unlocked) (heap st).

(** [c] started in [st] returns, with a result and a state in [Q]. *)
Definition wp {A} (c : M A) (st : state) (Q : A → state → Prop) : Prop :=
  ∃ a st', c st = Ret a st' ∧ Q a st'.

(** What [Add] and [Remove] make of a map. *)
Definition add_all (items : list T) (mp : gmap T ()) : gmap T () :=
  foldl (λ mp item, <[item := keyExists]> mp) mp items.

Definition remove_all (items : list T) (mp : gmap T ()) : gmap T () :=
  foldl (λ mp item, delete item mp) mp items.

(** The object [o] with one more shared lock, and with the exclusive
    lock. *)
Definition rlocked (o : object) : object :=
  set_l {| writer := false; readers := S (readers (l o)) |} o.

Definition wlocked (o : object) : object :=
  set_l {| writer := true; readers := 0 |} o.

(** What a call needs of its receiver or argument [x], the object [o]:
    for a [SetTS], a shared lock can be taken when no exclusive lock is
    held, and the exclusive lock when no lock is held at all. *)
Definition readable (st : state) (x : Set_) (o : object) : Prop :=
  heap st !! ptr x = Some o ∧ (dyn x = SetTS → writer (l o) = false).

Definition writable (st : state) (x : Set_) (o : object) : Prop :=
  heap st !! ptr x = Some o ∧ (dyn x = SetTS → l o = unlocked).

(** The result of the loop of [Has] on a non-empty slice. *)
Definition has_all (mp : gmap T ()) (items : list T) : bool :=
  forallb (λ item, bool_decide (is_Some (mp !! item))) items.

(** The heap while [Each] runs its loop on [x], and when it has
    released the shared lock again. *)
Definition rheld (x : Set_) (o : object) (h : list object) : list object :=
  if decide (dyn x = SetTS) then <[ptr x := rlocked o]> h else h.

Definition runheld (x : Set_) (o : object) (h : list object) : list object :=
  if decide (dyn x = SetTS) then <[ptr x := o]> h else h.

(** [x] can be read and its map is [mp]. *)
Definition reads (st : state) (x : Set_) (mp : gmap T ()) : Prop :=
  ∃ o, readable st x o ∧ m o = mp.

(** The dynamic type of a copy: [SetTS.Copy] calls [newTS], [set.Copy]
    calls [newNonTS]. *)
Definition copy_dyn (d : impl) : impl :=
  match d with
  | SetTS => SetTS
  | _ => SetNonTS
  end.

(** [e] is an element of every one of the sets [set1], [set2], [sets...]. *)
Definition in_all (st : state) (set1 set2 : Set_) (sets : list Set_) (e : T)
  : Prop :=
  e ∈ elems st set1 ∧ e ∈ elems st set2 ∧ Forall (λ t, e ∈ elems st t) sets.

Global Instance in_all_dec st set1 set2 sets e :
  Decision (in_all st set1 set2 sets e).
Proof. unfold in_all. apply _. Defined.

(** ** Scripts of calls, for the properties over sequences of calls *)

(** One call of [Add] or of [Remove]. *)
Inductive op :=
  | OpAdd (items : list T)
  | OpRemove (items : list T).

Definition apply_op (s : Set_) (o : op) : M () :=
  match o with
  | OpAdd items => Add s items
  | OpRemove items => Remove s items
  end.

(** A set is created, the calls are made in order, and its size is taken. *)
Definition size_after (setType : SetType) (ops : list op) : M Z :=
  s <- New setType ;;
  for_each (apply_op s) ops ;;;
  Size s.

(** [e] was added by some call and removed by no later one. *)
Definition added_and_kept (ops : list op) (e : T) : Prop :=
  ∃ pre items post,
    ops = pre ++ OpAdd items :: post ∧ e ∈ items ∧
    ∀ items', OpRemove items' ∈ post → e ∉ items'.

(** [Size(Union(a,b))], [Size(a)], [Size(b)] and
    [Size(Intersection(a,b))], taken one after the other. *)
Definition union_sizes (a b : Set_) : M (Z * Z * Z * Z) :=
  u <- Union a b [] ;;
  i <- Intersection a b [] ;;
  su <- Size u ;;
  sa <- Size a ;;
  sb <- Size b ;;
  si <- Size i ;;
  ret (su, sa, sb, si).

(** [SymmetricDifference(a,b)] compared with
    [Union(Difference(a,b), Difference(b,a))], its emptiness, and
    [a.IsEqual(b)]. *)
Definition symdiff_checks (a b : Set_) : M (bool * bool * bool) :=
  d <- SymmetricDifference a b ;;
  u <- Difference a b [] ;;
  v <- Difference b a [] ;;
  w <- Union u v [] ;;
  same <- IsEqual d w ;;
  empty <- IsEmpty d ;;
  equal <- IsEqual a b ;;
  ret (same, empty, equal).

(** One call that may change its receiver. *)
Inductive mutation :=
  | MAdd (items : list T)
  | MRemove (items : list T)
  | MPop
  | MClear
  | MMerge (t : Set_)
  | MSeparate (t : Set_).

Definition mutate (x : Set_) (mu : mutation) : M () :=
  match mu with
  | MAdd items => Add x items
  | MRemove items => Remove x items
  | MPop => Pop x ;;; ret tt
  | MClear => Clear x
  | MMerge t => Merge x t
  | MSeparate t => Separate x t
  end.

(** The argument of [Merge] and [Separate] is an allocated set, and
    [Merge] is not given its own receiver as a [SetTS]: it would wait
    for ever for the shared lock while holding the exclusive one. *)
Definition applicable (st : state) (x : Set_) (mu : mutation) : Prop :=
  match mu with
  | MMerge t => live st t ∧ (dyn t = SetTS → ptr x ≠ ptr t)
  | MSeparate t => live st t
  | _ => True
  end.

(** [IsEqual] both ways between a set and its copy. *)
Definition copy_checks (s : Set_) : M (Set_ * bool * bool) :=
  c <- Copy s ;;
  e1 <- IsEqual c s ;;
  e2 <- IsEqual s c ;;
  ret (c, e1, e2).

(** The heap has only grown, by objects whose mutex is free. *)
Definition grows (st st' : state) : Prop :=
  ∃ ext, heap st' = heap st ++ ext ∧ Forall (λ o, l o = unlocked) ext.

(** ** The locking discipline, read off a trace *)

Fixpoint release (p : nat) (held : list nat) : list nat :=
  match held with
  | [] => []
  | q :: held' => if decide (p = q) then held' else q :: release p held'
  end.

(** The discipline of the thread-safe variant: every read of the map of
    a [SetTS] happens while a lock of that set is held, shared or
    exclusive, and every write while its exclusive lock is held.  [ts]
    lists the addresses of the [SetTS] objects; [ws] and [rs] are the
    addresses whose exclusive and shared locks are held so far. *)
Fixpoint guarded (ts ws rs : list nat) (evs : list event) : bool :=
  match evs with
  | [] => true
  | EvLock p :: evs' => guarded ts (p :: ws) rs evs'
  | EvUnlock p :: evs' => guarded ts (release p ws) rs evs'
  | EvRLock p :: evs' => guarded ts ws (p :: rs) evs'
  | EvRUnlock p :: evs' => guarded ts ws (release p rs) evs'
  | EvLoad p :: evs' =>
      (negb (bool_decide (p ∈ ts)) ||
       bool_decide (p ∈ ws) || bool_decide (p ∈ rs)) &&
      guarded ts ws rs evs'
  | EvStore p :: evs' =>
      (negb (bool_decide (p ∈ ts)) || bool_decide (p ∈ ws)) &&
      guarded ts ws rs evs'
  end.

(** The trace of [st'] continues that of [st]. *)
Definition extends (st st' : state) : Prop :=
  ∃ evs, trace st' = trace st ++ evs.

(** What a call adds to the trace. *)
Definition events_of {A} (c : M A) (st : state) : list event :=
  match c st with
  | Ret _ st' => drop (length (trace st)) (trace st')
  | _ => []
  end.

End Set_.

(** ** A small heap to run the code on *)

Definition nat_zero : ZeroValue nat := 0%nat.

Definition nat_order : RangeOrder nat := λ _ mp, (map_to_list mp).*1.

(** A thread-safe [{1, 2, 3}] at address 0 and a plain [{3, 4, 5}] at
    address 1. *)
Definition two_sets : @state nat _ _ :=
  {| heap := [ {| m := add_all [1; 2; 3]%nat ∅; l := unlocked |};
               {| m := add_all [3; 4; 5]%nat ∅; l := unlocked |} ];
     trace := [] |}.

Definition setA : Set_ := {| dyn := SetTS; ptr := 0 |}.
Definition setB : Set_ := {| dyn := SetNonTS; ptr := 1 |}.

(** * Proofs *)

Section Proofs.

Set Default Proof Using "Type".

Context {T : Type} {EqT : EqDecision T} {CountT : Countable T}.
Context {ZeroT : ZeroValue T} {OrderT : RangeOrder T}.

(** Every loop over a map visits each key once. *)
Hypothesis range_keys_perm :
  ∀ n (mp : gmap T ()), range_keys n mp ≡ₚ (map_to_list mp).*1.

Notation "x <- c ;; k" := (bind c (λ x, k))
  (at level 100, c at next level, right associativity).
Notation "c ;;; k" := (bind c (λ _, k))
  (at level 100, right associativity).
Abbreviation state := (@state T EqT CountT).
Abbreviation object := (@object T EqT CountT).
Abbreviation M := (@M T EqT CountT).

(** ** The monad *)

Ltac wp_intros :=
  let a := fresh "a" in
  let st := fresh "st" in
  let HQ := fresh "HQ" in
  intros a st HQ; cbv beta in HQ; revert a st HQ.

Lemma wp_ret {A} (a : A) (st : state) (Q : A → state → Prop) : Q a st → wp (ret a) st Q.
Proof. intros HQ. exists a, st. done. Qed.

Lemma wp_bind {A B} (c : M A) (k : A → M B) (st : state) (Q : B → state → Prop) :
  wp c st (λ a st', wp (k a) st' Q) → wp (bind c k) st Q.
Proof.
  intros (a & st' & Hc & b & st'' & Hk & HQ).
  exists b, st''. unfold bind. rewrite Hc. done.
Qed.

Lemma wp_mono {A} (c : M A) (st : state) (Q Q' : A → state → Prop) :
  wp c st Q → (∀ a st', Q a st' → Q' a st') → wp c st Q'.
Proof. intros (a & st' & Hc & HQ) HQQ'. exists a, st'. auto. Qed.

Lemma wp_seq {A B} (c : M A) (k : A → M B) (st : state)
    (Q : A → state → Prop) (R : B → state → Prop) :
  wp c st Q → (∀ a st', Q a st' → wp (k a) st' R) → wp (bind c k) st R.
Proof. intros Hc Hk. apply wp_bind. eapply wp_mono; eauto. Qed.

Lemma wp_ret_bind {A B} (a : A) (k : A → M B) (st : state) (Q : B → state → Prop) :
  wp (k a) st Q → wp (bind (ret a) k) st Q.
Proof. intros Hk. apply wp_bind. by apply wp_ret. Qed.

(** ** Maps of keys *)

Lemma unit_map_eq (m1 m2 : gmap T ()) : dom m1 = dom m2 → m1 = m2.
Proof.
  intros Hd. apply map_eq. intros i.
  destruct (m1 !! i) as [[]|] eqn:E1, (m2 !! i) as [[]|] eqn:E2; try done.
  - apply (elem_of_dom_2 (D := gset T)) in E1. rewrite Hd in E1.
    apply elem_of_dom in E1 as [? E1]. congruence.
  - apply (elem_of_dom_2 (D := gset T)) in E2. rewrite <- Hd in E2.
    apply elem_of_dom in E2 as [? E2]. congruence.
Qed.

Lemma dom_add_all (items : list T) (mp : gmap T ()) :
  dom (add_all items mp) = dom mp ∪ list_to_set items.
Proof.
  clear range_keys_perm.
  revert mp. induction items as [|i items IH]; intros mp; simpl.
  - set_solver.
  - unfold add_all in *. simpl. rewrite IH, dom_insert_L. set_solver.
Qed.

Lemma dom_remove_all (items : list T) (mp : gmap T ()) :
  dom (remove_all items mp) = dom mp ∖ list_to_set items.
Proof.
  clear range_keys_perm.
  revert mp. induction items as [|i items IH]; intros mp; simpl.
  - set_solver.
  - unfold remove_all in *. simpl. rewrite IH, dom_delete_L. set_solver.
Qed.

Lemma is_Some_dom (mp : gmap T ()) (e : T) :
  bool_decide (is_Some (mp !! e)) = bool_decide (e ∈ dom mp).
Proof. apply bool_decide_ext. by rewrite elem_of_dom. Qed.

Lemma range_keys_elem n (mp : gmap T ()) e : e ∈ range_keys n mp ↔ e ∈ dom mp.
Proof using range_keys_perm.
  rewrite (range_keys_perm n mp), elem_of_dom, list_elem_of_fmap.
  split.
  - intros ([k []] & -> & Hk). apply elem_of_map_to_list in Hk. eauto.
  - intros [[] Hk]. exists (e, ()). split; [done|]. by apply elem_of_map_to_list.
Qed.

Lemma range_keys_length n (mp : gmap T ()) : length (range_keys n mp) = size mp.
Proof using range_keys_perm.
  rewrite (range_keys_perm n mp), length_fmap. apply length_map_to_list.
Qed.

(** ** Memory and mutex primitives *)

Lemma set_m_id (o : object) : set_m (m o) o = o.
Proof. by destruct o. Qed.

Lemma load_m_spec (st : state) p o :
  heap st !! p = Some o →
  wp (load_m p) st (λ mp st', mp = m o ∧ heap st' = heap st).
Proof.
  intros Ho. unfold load_m, wp, bind, emit, deref, ret. simpl.
  rewrite Ho. eauto.
Qed.

Lemma store_m_spec (st : state) p f o :
  heap st !! p = Some o →
  wp (store_m p f) st
     (λ _ st', heap st' = <[p := set_m (f (m o)) o]> (heap st)).
Proof.
  intros Ho. unfold store_m, wp, bind, emit, deref, assign. simpl.
  rewrite Ho. eauto.
Qed.

Lemma range_m_spec (st : state) p o :
  heap st !! p = Some o →
  wp (range_m p) st
     (λ keys st', keys = range_keys (length (trace st)) (m o) ∧
                  heap st' = heap st).
Proof.
  intros Ho. unfold range_m, load_m, wp, bind, emit, deref, ret. simpl.
  rewrite Ho. eauto.
Qed.

Lemma alloc_spec (st : state) o :
  wp (alloc o) st (λ p st', p = length (heap st) ∧ heap st' = heap st ++ [o]).
Proof. unfold alloc, wp. eauto. Qed.

Lemma Lock_spec (st : state) p o :
  heap st !! p = Some o → l o = unlocked →
  wp (Lock p) st
     (λ _ st', heap st' =
               <[p := set_l {| writer := true; readers := 0 |} o]> (heap st)).
Proof.
  intros Ho Hl. unfold Lock, wp, bind, emit, deref, assign. simpl.
  rewrite Ho, Hl. simpl. eauto.
Qed.

Lemma Unlock_spec (st : state) p o :
  heap st !! p = Some o → writer (l o) = true →
  wp (Unlock p) st
     (λ _ st', heap st' =
               <[p := set_l {| writer := false; readers := readers (l o) |} o]>
                 (heap st)).
Proof.
  intros Ho Hl. unfold Unlock, wp, bind, emit, deref, assign. simpl.
  rewrite Ho, Hl. simpl. eauto.
Qed.

Lemma RLock_spec (st : state) p o :
  heap st !! p = Some o → writer (l o) = false →
  wp (RLock p) st
     (λ _ st', heap st' =
               <[p := set_l {| writer := false; readers := S (readers (l o)) |} o]>
                 (heap st)).
Proof.
  intros Ho Hl. unfold RLock, wp, bind, emit, deref, assign. simpl.
  rewrite Ho, Hl. simpl. eauto.
Qed.

Lemma RUnlock_spec (st : state) p o n :
  heap st !! p = Some o → readers (l o) = S n →
  wp (RUnlock p) st
     (λ _ st', heap st' =
               <[p := set_l {| writer := writer (l o); readers := n |} o]>
                 (heap st)).
Proof.
  intros Ho Hl. unfold RUnlock, wp, bind, emit, deref, assign. simpl.
  rewrite Ho, Hl. simpl. eauto.
Qed.

Lemma insert_restore (h : list object) p o o' :
  h !! p = Some o → <[p := o]> (<[p := o']> h) = h.
Proof. intros Ho. by rewrite list_insert_insert_eq, list_insert_id. Qed.

Lemma lookup_insert_live (h : list object) p o o' :
  h !! p = Some o → <[p := o']> h !! p = Some o'.
Proof. intros Ho. apply list_lookup_insert_eq. by eapply lookup_lt_Some. Qed.

Lemma RLock_rlocked (st : state) p o :
  heap st !! p = Some o → writer (l o) = false →
  wp (RLock p) st (λ _ st', heap st' = <[p := rlocked o]> (heap st)).
Proof. apply RLock_spec. Qed.

Lemma RUnlock_rlocked (st : state) p o :
  heap st !! p = Some (rlocked o) → writer (l o) = false →
  wp (RUnlock p) st (λ _ st', heap st' = <[p := o]> (heap st)).
Proof.
  intros Ho Hw. eapply wp_mono; [by eapply RUnlock_spec|].
  intros ? st' ->. f_equal. destruct o as [mo [w n]]; simpl in *; by subst.
Qed.

Lemma Lock_wlocked (st : state) p o :
  heap st !! p = Some o → l o = unlocked →
  wp (Lock p) st (λ _ st', heap st' = <[p := wlocked o]> (heap st)).
Proof. apply Lock_spec. Qed.

Lemma Unlock_wlocked (st : state) p o :
  heap st !! p = Some (wlocked o) → l o = unlocked →
  wp (Unlock p) st (λ _ st', heap st' = <[p := o]> (heap st)).
Proof.
  intros Ho Hw. eapply wp_mono; [by eapply Unlock_spec|].
  intros ? st' ->. f_equal. destruct o as [mo [w n]]; simpl in *.
  by inversion Hw.
Qed.

Lemma for_each_store_insert (st : state) p items o :
  heap st !! p = Some o →
  wp (for_each (λ item, store_m p (insert item keyExists)) items) st
     (λ _ st', heap st' = <[p := set_m (add_all items (m o)) o]> (heap st)).
Proof.
  revert st o. induction items as [|i items IH]; intros st o Ho; simpl.
  - apply wp_ret. by rewrite set_m_id, list_insert_id.
  - eapply wp_seq; [by apply store_m_spec|]. intros ? st1 H1.
    eapply wp_mono.
    + apply IH. rewrite H1. apply list_lookup_insert_eq. by eapply lookup_lt_Some.
    + intros ? st2 H2. simpl in H2. by rewrite H2, H1, list_insert_insert_eq.
Qed.

Lemma for_each_store_delete (st : state) p items o :
  heap st !! p = Some o →
  wp (for_each (λ item, store_m p (delete item)) items) st
     (λ _ st', heap st' = <[p := set_m (remove_all items (m o)) o]> (heap st)).
Proof.
  revert st o. induction items as [|i items IH]; intros st o Ho; simpl.
  - apply wp_ret. by rewrite set_m_id, list_insert_id.
  - eapply wp_seq; [by apply store_m_spec|]. intros ? st1 H1.
    eapply wp_mono.
    + apply IH. rewrite H1. apply list_lookup_insert_eq. by eapply lookup_lt_Some.
    + intros ? st2 H2. simpl in H2. by rewrite H2, H1, list_insert_insert_eq.
Qed.

(** ** The methods on one set *)

Lemma set_Add_spec (st : state) s items o :
  heap st !! s = Some o →
  wp (set_Add s items) st
     (λ _ st', heap st' = <[s := set_m (add_all items (m o)) o]> (heap st)).
Proof.
  intros Ho. unfold set_Add. destruct items as [|i items]; simpl Nat.eqb; cbv iota.
  - apply wp_ret. unfold add_all, remove_all. simpl. by rewrite set_m_id, list_insert_id.
  - by apply for_each_store_insert.
Qed.

Lemma set_Remove_spec (st : state) s items o :
  heap st !! s = Some o →
  wp (set_Remove s items) st
     (λ _ st', heap st' = <[s := set_m (remove_all items (m o)) o]> (heap st)).
Proof.
  intros Ho. unfold set_Remove. destruct items as [|i items]; simpl Nat.eqb; cbv iota.
  - apply wp_ret. unfold add_all, remove_all. simpl. by rewrite set_m_id, list_insert_id.
  - by apply for_each_store_delete.
Qed.

Lemma SetTS_Add_spec (st : state) s items o :
  heap st !! s = Some o → l o = unlocked →
  wp (SetTS_Add s items) st
     (λ _ st', heap st' = <[s := set_m (add_all items (m o)) o]> (heap st)).
Proof.
  intros Ho Hl. unfold SetTS_Add.
  destruct items as [|i items]; simpl Nat.eqb; cbv iota.
  - apply wp_ret. unfold add_all, remove_all. simpl. by rewrite set_m_id, list_insert_id.
  - eapply wp_seq; [by apply Lock_wlocked|]. intros ? st1 H1.
    eapply wp_seq.
    { apply for_each_store_insert. rewrite H1. by eapply lookup_insert_live. }
    intros ? st2 H2. eapply wp_mono.
    { apply (Unlock_wlocked _ _ (set_m (add_all (i :: items) (m o)) o)); [|done].
      rewrite H2. by eapply lookup_insert_live; rewrite H1; eapply lookup_insert_live. }
    intros ? st3 H3. simpl in H3. by rewrite H3, H2, H1, !list_insert_insert_eq.
Qed.

Lemma SetTS_Remove_spec (st : state) s items o :
  heap st !! s = Some o → l o = unlocked →
  wp (SetTS_Remove s items) st
     (λ _ st', heap st' = <[s := set_m (remove_all items (m o)) o]> (heap st)).
Proof.
  intros Ho Hl. unfold SetTS_Remove.
  destruct items as [|i items]; simpl Nat.eqb; cbv iota.
  - apply wp_ret. unfold add_all, remove_all. simpl. by rewrite set_m_id, list_insert_id.
  - eapply wp_seq; [by apply Lock_wlocked|]. intros ? st1 H1.
    eapply wp_seq.
    { apply for_each_store_delete. rewrite H1. by eapply lookup_insert_live. }
    intros ? st2 H2. eapply wp_mono.
    { apply (Unlock_wlocked _ _ (set_m (remove_all (i :: items) (m o)) o)); [|done].
      rewrite H2. by eapply lookup_insert_live; rewrite H1; eapply lookup_insert_live. }
    intros ? st3 H3. simpl in H3. by rewrite H3, H2, H1, !list_insert_insert_eq.
Qed.

Lemma Add_spec (st : state) x items o :
  writable st x o →
  wp (Add x items) st
     (λ _ st', heap st' = <[ptr x := set_m (add_all items (m o)) o]> (heap st)).
Proof.
  intros [Ho Hl]. unfold Add. destruct (dyn x).
  - by apply set_Add_spec.
  - apply SetTS_Add_spec; auto.
  - by apply set_Add_spec.
Qed.

Lemma Remove_spec (st : state) x items o :
  writable st x o →
  wp (Remove x items) st
     (λ _ st', heap st' = <[ptr x := set_m (remove_all items (m o)) o]> (heap st)).
Proof.
  intros [Ho Hl]. unfold Remove. destruct (dyn x).
  - by apply set_Remove_spec.
  - apply SetTS_Remove_spec; auto.
  - by apply set_Remove_spec.
Qed.

Lemma Clear_spec (st : state) x o :
  writable st x o →
  wp (Clear x) st (λ _ st', heap st' = <[ptr x := set_m ∅ o]> (heap st)).
Proof.
  intros [Ho Hl]. unfold Clear.
  assert (Hbase : wp (set_Clear (ptr x)) st
            (λ _ st', heap st' = <[ptr x := set_m ∅ o]> (heap st))).
  { unfold set_Clear. by apply (store_m_spec _ _ (λ _, ∅)). }
  destruct (dyn x); try done.
  unfold SetTS_Clear. specialize (Hl eq_refl).
  eapply wp_seq; [by apply Lock_wlocked|]. intros ? st1 H1.
  eapply wp_seq.
  { apply (store_m_spec _ _ (λ _, ∅)). rewrite H1. by eapply lookup_insert_live. }
  intros ? st2 H2. eapply wp_mono.
  { apply (Unlock_wlocked _ _ (set_m ∅ o)); [|done].
    rewrite H2. by eapply lookup_insert_live; rewrite H1; eapply lookup_insert_live. }
  intros ? st3 H3. simpl in H3. by rewrite H3, H2, H1, !list_insert_insert_eq.
Qed.

Lemma set_Size_spec (st : state) s o :
  heap st !! s = Some o →
  wp (set_Size s) st (λ n st', n = Z.of_nat (size (m o)) ∧ heap st' = heap st).
Proof.
  intros Ho. unfold set_Size. eapply wp_seq; [by apply load_m_spec|].
  wp_intros; intros mp st1 [-> H1]. by apply wp_ret.
Qed.

Lemma Size_spec (st : state) x o :
  readable st x o →
  wp (Size x) st (λ n st', n = Z.of_nat (size (m o)) ∧ heap st' = heap st).
Proof.
  intros [Ho Hl]. unfold Size.
  pose proof (set_Size_spec st (ptr x) o Ho) as Hbase.
  destruct (dyn x); try done.
  unfold SetTS_Size. specialize (Hl eq_refl).
  eapply wp_seq; [by apply RLock_rlocked|]. intros ? st1 H1.
  eapply wp_seq.
  { apply load_m_spec. rewrite H1. by eapply lookup_insert_live. }
  wp_intros; intros mp st2 [-> H2]. simpl.
  eapply wp_seq.
  { apply (RUnlock_rlocked _ _ o); [|done].
    rewrite H2, H1. by eapply lookup_insert_live. }
  intros ? st3 H3. apply wp_ret. split; [done|].
  rewrite H3, H2, H1. by apply insert_restore.
Qed.

Lemma IsEmpty_spec (st : state) x o :
  heap st !! ptr x = Some o →
  wp (IsEmpty x) st
     (λ b st', b = bool_decide (dom (m o) = ∅) ∧ heap st' = heap st).
Proof.
  intros Ho. unfold IsEmpty, set_IsEmpty.
  eapply wp_seq; [by apply set_Size_spec|].
  wp_intros; intros n st1 [-> H1]. apply wp_ret. split; [|done].
  rewrite <- (size_dom (D := gset T)).
  destruct (bool_decide_reflect (dom (m o) = ∅)) as [E|E].
  - rewrite E, size_empty. done.
  - apply Z.eqb_neq. intros E'. apply E.
    apply leibniz_equiv, size_empty_inv. lia.
Qed.

Lemma Has_loop_spec (st : state) s items o :
  heap st !! s = Some o →
  wp (Has_loop s items true) st
     (λ b st', b = has_all (m o) items ∧ heap st' = heap st).
Proof.
  intros Ho. revert st Ho. induction items as [|i items IH]; intros st Ho; simpl.
  - by apply wp_ret.
  - eapply wp_seq; [by apply load_m_spec|]. wp_intros; intros mp st1 [-> H1].
    destruct (bool_decide (is_Some (m o !! i))); simpl.
    + eapply wp_mono; [apply IH; by rewrite H1|].
      wp_intros; intros b st2 [-> H2]. by rewrite H2.
    + by apply wp_ret.
Qed.

Lemma Has_spec (st : state) x items o :
  readable st x o →
  wp (Has x items) st
     (λ b st', b = (if Nat.eqb (length items) 0 then false
                    else has_all (m o) items) ∧ heap st' = heap st).
Proof.
  intros [Ho Hl]. unfold Has.
  assert (Hbase : wp (set_Has (ptr x) items) st
            (λ b st', b = (if Nat.eqb (length items) 0 then false
                           else has_all (m o) items) ∧ heap st' = heap st)).
  { unfold set_Has. destruct (Nat.eqb (length items) 0).
    - by apply wp_ret.
    - by apply Has_loop_spec. }
  destruct (dyn x); try done.
  unfold SetTS_Has. specialize (Hl eq_refl).
  destruct (Nat.eqb (length items) 0); [by apply wp_ret|].
  eapply wp_seq; [by apply RLock_rlocked|]. intros ? st1 H1.
  eapply wp_seq.
  { apply Has_loop_spec. rewrite H1. by eapply lookup_insert_live. }
  wp_intros; intros b st2 [-> H2]. simpl.
  eapply wp_seq.
  { apply (RUnlock_rlocked _ _ o); [|done].
    rewrite H2, H1. by eapply lookup_insert_live. }
  intros ? st3 H3. apply wp_ret. split; [done|].
  rewrite H3, H2, H1. by apply insert_restore.
Qed.

Lemma foldl_append (keys acc : list T) :
  foldl (λ list item, list ++ [item]) acc keys = acc ++ keys.
Proof.
  revert acc. induction keys as [|k keys IH]; intros acc; simpl.
  - by rewrite app_nil_r.
  - by rewrite IH, <- app_assoc.
Qed.

Lemma List_spec (st : state) x o :
  readable st x o →
  wp (List x) st
     (λ keys st', keys ≡ₚ (map_to_list (m o)).*1 ∧ heap st' = heap st).
Proof using range_keys_perm.
  intros [Ho Hl]. unfold List.
  assert (Hbase : wp (set_List (ptr x)) st
            (λ keys st', keys ≡ₚ (map_to_list (m o)).*1 ∧ heap st' = heap st)).
  { unfold set_List. eapply wp_seq; [by apply load_m_spec|].
    wp_intros; intros mp st0 [_ H0]. simpl.
    eapply wp_seq; [apply range_m_spec; by rewrite H0|].
    wp_intros; intros keys st1 [-> H1]. apply wp_ret.
    split; [rewrite foldl_append; apply range_keys_perm|by rewrite H1]. }
  destruct (dyn x); try done.
  unfold SetTS_List. specialize (Hl eq_refl).
  eapply wp_seq; [by apply RLock_rlocked|]. intros ? st0 H0.
  eapply wp_seq.
  { apply load_m_spec. rewrite H0. by eapply lookup_insert_live. }
  wp_intros; intros mp st1 [_ H1]. simpl. rewrite H0 in H1.
  eapply wp_seq.
  { apply range_m_spec. rewrite H1. by eapply lookup_insert_live. }
  wp_intros; intros keys st2 [-> H2]. simpl.
  eapply wp_seq.
  { apply (RUnlock_rlocked _ _ o); [|done].
    rewrite H2, H1. by eapply lookup_insert_live. }
  intros ? st3 H3. apply wp_ret.
  split; [rewrite foldl_append; apply range_keys_perm|].
  rewrite H3, H2, H1. by apply insert_restore.
Qed.

Lemma range_keys_nil n (mp : gmap T ()) : range_keys n mp = [] → mp = ∅.
Proof using range_keys_perm.
  intros E. apply map_size_empty_inv.
  by rewrite <- (range_keys_length n), E.
Qed.

Lemma range_keys_head n (mp : gmap T ()) item keys :
  range_keys n mp = item :: keys → item ∈ dom mp.
Proof using range_keys_perm.
  intros E. apply (range_keys_elem n). rewrite E. by left. Qed.

Lemma Pop_spec (st : state) x o :
  writable st x o →
  wp (Pop x) st
     (λ r st',
        (m o = ∅ ∧ r = (zeroVal, false) ∧ heap st' = heap st) ∨
        (∃ item, r = (item, true) ∧ item ∈ dom (m o) ∧
                 heap st' = <[ptr x := set_m (delete item (m o)) o]> (heap st))).
Proof using range_keys_perm.
  intros [Ho Hl]. unfold Pop.
  assert (Hbase : wp (set_Pop (ptr x)) st
     (λ r st',
        (m o = ∅ ∧ r = (zeroVal, false) ∧ heap st' = heap st) ∨
        (∃ item, r = (item, true) ∧ item ∈ dom (m o) ∧
                 heap st' = <[ptr x := set_m (delete item (m o)) o]> (heap st)))).
  { unfold set_Pop. eapply wp_seq; [by apply range_m_spec|].
    wp_intros; intros keys st1 [E H1]. destruct keys as [|item keys].
    - apply wp_ret. left. symmetry in E. apply range_keys_nil in E. done.
    - symmetry in E. apply range_keys_head in E.
      eapply wp_seq; [apply store_m_spec; by rewrite H1|].
      intros ? st2 H2. apply wp_ret. right. exists item.
      by rewrite H2, H1. }
  destruct (dyn x); try done.
  unfold SetTS_Pop. specialize (Hl eq_refl).
  assert (Hw : writer (l o) = false) by by rewrite Hl.
  eapply wp_seq; [by apply RLock_rlocked|]. intros ? st1 H1.
  eapply wp_seq.
  { apply range_m_spec. rewrite H1. by eapply lookup_insert_live. }
  wp_intros; intros keys st2 [E H2]. simpl in E.
  assert (H3' : wp (RUnlock (ptr x)) st2 (λ _ st3, heap st3 = heap st)).
  { eapply wp_mono.
    - apply (RUnlock_rlocked _ _ o); [|done].
      rewrite H2, H1. by eapply lookup_insert_live.
    - intros ? st3 H3. simpl in H3. rewrite H3, H2, H1. by apply insert_restore. }
  destruct keys as [|item keys].
  - eapply wp_seq; [exact H3'|]. intros ? st3 H3.
    apply wp_ret. left. symmetry in E. apply range_keys_nil in E. done.
  - symmetry in E. apply range_keys_head in E.
    eapply wp_seq; [exact H3'|]. intros ? st3 H3.
    eapply wp_seq; [apply Lock_wlocked; [by rewrite H3|done]|]. intros ? st4 H4.
    eapply wp_seq.
    { apply store_m_spec. rewrite H4, H3. by eapply lookup_insert_live. }
    intros ? st5 H5. eapply wp_seq.
    { apply (Unlock_wlocked _ _ (set_m (delete item (m o)) o)); [|done].
      rewrite H5. by eapply lookup_insert_live; rewrite H4, H3; eapply lookup_insert_live. }
    intros ? st6 H6. apply wp_ret. right. exists item.
    split; [done|]. split; [done|].
    by rewrite H6, H5, H4, H3, !list_insert_insert_eq.
Qed.

(** ** Loops *)

Lemma for_each_inv {A} (body : A → M ()) (I : list A → state → Prop) xs (st : state) :
  I [] st →
  (∀ pre x st1, x ∈ xs → I pre st1 →
     wp (body x) st1 (λ _ st2, I (pre ++ [x]) st2)) →
  wp (for_each body xs) st (λ _ st', I xs st').
Proof.
  revert I st. induction xs as [|x xs IH]; intros I st H0 Hbody; simpl.
  - by apply wp_ret.
  - eapply wp_seq; [apply (Hbody []); [by left|exact H0]|].
    intros ? st1 H1. simpl in H1.
    apply (IH (λ pre, I (x :: pre))); [done|].
    intros pre y st2 Hy H2. apply (Hbody (x :: pre)); [by right|done].
Qed.

(** [Each_loop] with a closure that never stops the traversal. *)
Lemma Each_loop_inv {L} (f : T → L → M (L * bool))
    (I : list T → state → Prop) keys acc st :
  I [] st →
  (∀ pre k a st1, I pre st1 → k ∈ keys →
     wp (f k a) st1 (λ r st2, r.2 = true ∧ I (pre ++ [k]) st2)) →
  wp (Each_loop f keys acc) st (λ _ st', I keys st').
Proof.
  revert I acc st. induction keys as [|k keys IH]; intros I acc st H0 Hf; simpl.
  - by apply wp_ret.
  - eapply wp_seq; [apply (Hf []); [exact H0|by left]|].
    wp_intros; intros r st1 [Hr H1]. rewrite Hr. simpl.
    apply (IH (λ pre, I (k :: pre))); [done|].
    intros pre y a st2 H2 Hy. apply (Hf (k :: pre)); [done|by right].
Qed.

(** [Each_loop] with the closure of [IsEqual] and [IsSubset]. *)
Lemma Each_loop_member (st : state) s keys o :
  heap st !! s = Some o →
  wp (Each_loop (λ item (_ : bool),
                   mp <- load_m s ;;
                   let b := bool_decide (is_Some (mp !! item)) in
                   ret (b, b)) keys true) st
     (λ b st', b = has_all (m o) keys ∧ heap st' = heap st).
Proof.
  intros Ho. revert st Ho. induction keys as [|k keys IH]; intros st Ho; simpl.
  - by apply wp_ret.
  - eapply wp_seq.
    { eapply wp_seq; [by apply load_m_spec|].
      wp_intros; intros mp st1 [-> H1]. apply wp_ret.
      instantiate (1 := λ r st', r = (bool_decide (is_Some (m o !! k)),
                                      bool_decide (is_Some (m o !! k))) ∧
                                 heap st' = heap st).
      done. }
    wp_intros; intros r st1 [-> H1]. simpl.
    destruct (bool_decide (is_Some (m o !! k))); simpl.
    + eapply wp_mono; [apply IH; by rewrite H1|].
      wp_intros; intros b st2 [-> H2]. by rewrite H2.
    + by apply wp_ret.
Qed.

Lemma has_all_subseteq (mp : gmap T ()) keys (X : gset T) :
  (∀ e, e ∈ keys ↔ e ∈ X) →
  has_all mp keys = bool_decide (X ⊆ dom mp).
Proof.
  intros HX. unfold has_all.
  destruct (bool_decide_reflect (X ⊆ dom mp)) as [Hs|Hs].
  - apply forallb_forall. intros e He%list_elem_of_In.
    apply bool_decide_eq_true, elem_of_dom, Hs, HX, He.
  - apply not_true_is_false. intros Hall. apply Hs. intros e He.
    apply elem_of_dom. apply HX, list_elem_of_In in He.
    rewrite forallb_forall in Hall. eapply bool_decide_eq_true_1, Hall, He.
Qed.

Lemma perm_keys_elem (mp : gmap T ()) keys e :
  keys ≡ₚ (map_to_list mp).*1 → e ∈ keys ↔ e ∈ dom mp.
Proof.
  intros ->. rewrite elem_of_dom, list_elem_of_fmap. split.
  - intros ([k []] & -> & Hk). apply elem_of_map_to_list in Hk. eauto.
  - intros [[] Hk]. exists (e, ()). split; [done|]. by apply elem_of_map_to_list.
Qed.

Lemma perm_keys_set (mp : gmap T ()) keys :
  keys ≡ₚ (map_to_list mp).*1 → list_to_set keys = dom mp.
Proof.
  intros Hk. apply set_eq. intros e.
  by rewrite elem_of_list_to_set, (perm_keys_elem mp).
Qed.

(** ** [Each] through the interface *)

Lemma Each_spec {L} (st : state) x o (f : T → L → M (L * bool)) (acc : L)
    (Q : L → state → Prop) :
  readable st x o →
  (∀ keys st1,
     keys ≡ₚ (map_to_list (m o)).*1 →
     heap st1 = rheld x o (heap st) →
     wp (Each_loop f keys acc) st1 (λ acc' st2,
       (dyn x = SetTS → heap st2 !! ptr x = Some (rlocked o)) ∧
       ∀ st3, heap st3 = runheld x o (heap st2) → Q acc' st3)) →
  wp (Each x f acc) st Q.
Proof using range_keys_perm.
  intros [Ho Hl] Hloop. unfold Each, rheld, runheld in *.
  assert (Hbase : dyn x ≠ SetTS → wp (set_Each (ptr x) f acc) st Q).
  { intros Hd. unfold set_Each. eapply wp_seq; [by apply range_m_spec|].
    wp_intros; intros keys st1 [-> H1]. eapply wp_mono.
    - apply Hloop; [apply range_keys_perm|]. by rewrite decide_False.
    - wp_intros; intros acc' st2 [_ HQ]. apply HQ. by rewrite decide_False. }
  destruct (dyn x) eqn:Ed; try (by apply Hbase).
  clear Hbase. specialize (Hl eq_refl). unfold SetTS_Each.
  eapply wp_seq; [by apply RLock_rlocked|]. intros ? st1 H1.
  eapply wp_seq.
  { apply range_m_spec. rewrite H1. by eapply lookup_insert_live. }
  wp_intros; intros keys st2 [-> H2]. simpl.
  eapply wp_seq.
  { apply Hloop; [apply range_keys_perm|]. by rewrite H2, H1. }
  wp_intros; intros acc' st3 [Hx HQ]. specialize (Hx eq_refl).
  eapply wp_seq; [by apply (RUnlock_rlocked _ _ o)|]. intros ? st4 H4.
  apply wp_ret, HQ. by rewrite H4.
Qed.

Lemma runheld_rheld x (o : object) h :
  h !! ptr x = Some o → runheld x o (rheld x o h) = h.
Proof.
  intros Ho. unfold runheld, rheld. case_decide; [|done].
  by apply insert_restore.
Qed.

Lemma lookup_rheld x (o : object) h p o' :
  h !! ptr x = Some o → h !! p = Some o' →
  ∃ o'', rheld x o h !! p = Some o'' ∧ m o'' = m o' ∧
         (writer (l o) = false → writer (l o'') = writer (l o')).
Proof.
  intros Ho Ho'. unfold rheld. case_decide; [|eauto].
  destruct (decide (ptr x = p)) as [<-|Hne].
  - exists (rlocked o). split; [by eapply lookup_insert_live|].
    assert (o' = o) as -> by congruence. split; [done|]. simpl. by intros ->.
  - exists o'. by rewrite list_lookup_insert_ne.
Qed.

Lemma lookup_rheld_self x (o : object) h :
  h !! ptr x = Some o → dyn x = SetTS → rheld x o h !! ptr x = Some (rlocked o).
Proof.
  intros Ho Hd. unfold rheld. rewrite decide_True by done.
  by eapply lookup_insert_live.
Qed.

Lemma readable_reads (st : state) x o : readable st x o → reads st x (m o).
Proof. intros Hr. by exists o. Qed.

(** ** Comparing two sets *)

Lemma IsEqual_body_spec (st : state) s os t mt :
  heap st !! s = Some os → reads st t mt →
  wp (mp <- load_m s ;;
      n <- Size t ;;
      let sameSize := Z.of_nat (size mp) =? n in
      if negb sameSize then ret false
      else
        Each t (λ item (equal : bool),
                  mp <- load_m s ;;
                  let equal := bool_decide (is_Some (mp !! item)) in
                  ret (equal, equal)) true) st
     (λ b st', b = ((Z.of_nat (size (m os)) =? Z.of_nat (size mt)) &&
                    bool_decide (dom mt ⊆ dom (m os))) ∧
               heap st' = heap st).
Proof using range_keys_perm.
  intros Hs (ot & Ht & <-).
  eapply wp_seq; [by apply load_m_spec|].
  wp_intros; intros mp st1 [-> H1].
  eapply wp_seq; [apply (Size_spec _ _ ot); destruct Ht; split; by rewrite ?H1|].
  wp_intros; intros n st2 [-> H2]. simpl.
  destruct (Z.of_nat (size (m os)) =? Z.of_nat (size (m ot))); simpl.
  2: { apply wp_ret. by rewrite H2, H1. }
  assert (Ht2 : readable st2 t ot).
  { destruct Ht. split; by rewrite ?H2, ?H1. }
  apply (Each_spec _ _ ot); [done|]. intros keys st3 Hkeys H3.
  destruct Ht as [Ht Htl].
  destruct (lookup_rheld t ot (heap st) s os Ht Hs) as (os' & Hs' & Hm & _).
  eapply wp_mono.
  { apply (Each_loop_member _ _ _ os'). by rewrite H3, H2, H1. }
  wp_intros; intros b st4 [-> H4]. split.
  - intros Hd. rewrite H4, H3, H2, H1. by apply lookup_rheld_self.
  - intros st5 H5. split.
    + rewrite Hm. apply has_all_subseteq. intros e. by apply perm_keys_elem.
    + rewrite H5, H4, H3, H2, H1. by apply runheld_rheld.
Qed.

Lemma set_IsEqual_spec (st : state) s os t mt :
  heap st !! s = Some os → reads st t mt →
  wp (set_IsEqual s t) st
     (λ b st', b = ((Z.of_nat (size (m os)) =? Z.of_nat (size mt)) &&
                    bool_decide (dom mt ⊆ dom (m os))) ∧
               heap st' = heap st).
Proof using range_keys_perm.
  intros Hs Ht. unfold set_IsEqual.
  assert (RWLockable t = false) as -> by (unfold RWLockable; by destruct (dyn t)).
  apply wp_ret_bind.
  eapply wp_seq; [by apply IsEqual_body_spec|].
  wp_intros; intros b st2 [-> H2].
  apply wp_ret_bind. by apply wp_ret.
Qed.

Lemma SetTS_IsEqual_spec (st : state) s os t mt :
  heap st !! s = Some os → writer (l os) = false → reads st t mt →
  wp (SetTS_IsEqual s t) st
     (λ b st', b = ((Z.of_nat (size (m os)) =? Z.of_nat (size mt)) &&
                    bool_decide (dom mt ⊆ dom (m os))) ∧
               heap st' = heap st).
Proof using range_keys_perm.
  intros Hs Hw (ot & [Ht Htl] & <-). unfold SetTS_IsEqual.
  eapply wp_seq; [by apply RLock_rlocked|]. intros ? st1 H1.
  assert (Hs1 : heap st1 !! s = Some (rlocked os)).
  { rewrite H1. by eapply lookup_insert_live. }
  assert (∃ ot1, heap st1 !! ptr t = Some ot1 ∧ m ot1 = m ot ∧
                 (dyn t = SetTS → writer (l ot1) = false))
    as (ot1 & Ht1 & Hm1 & Hw1).
  { rewrite H1. destruct (decide (s = ptr t)) as [->|Hne].
    - exists (rlocked os). split; [by eapply lookup_insert_live|].
      split; [|done]. simpl. congruence.
    - exists ot. by rewrite list_lookup_insert_ne. }
  destruct (decide (dyn t = SetTS)) as [Hd|Hd].
  - eapply wp_seq; [apply (RLock_rlocked _ _ ot1); auto|]. intros ? st2 H2.
    assert (∃ os2, heap st2 !! s = Some os2 ∧ m os2 = m os) as (os2 & Hs2 & Hm2).
    { rewrite H2. destruct (decide (ptr t = s)) as [E|Hne].
      - exists (rlocked ot1). rewrite E. split; [by eapply lookup_insert_live|].
        simpl. rewrite E in Ht1. congruence.
      - exists (rlocked os). by rewrite list_lookup_insert_ne. }
    eapply wp_seq.
    { apply (IsEqual_body_spec _ _ os2 _ (m ot)); [done|].
      exists (rlocked ot1). split; [|done]. split; [|done].
      rewrite H2. by eapply lookup_insert_live. }
    wp_intros; intros b st3 [-> H3].
    eapply wp_seq.
    { apply (RUnlock_rlocked _ _ ot1); [|auto].
      rewrite H3, H2. by eapply lookup_insert_live. }
    intros ? st4 H4.
    assert (H41 : heap st4 = heap st1).
    { rewrite H4, H3, H2. by apply insert_restore. }
    eapply wp_seq.
    { apply (RUnlock_rlocked _ _ os); [|done]. by rewrite H41. }
    intros ? st5 H5. apply wp_ret. split; [by rewrite Hm2|].
    rewrite H5, H41, H1. by apply insert_restore.
  - apply wp_ret_bind.
    eapply wp_seq.
    { apply (IsEqual_body_spec _ _ (rlocked os) _ (m ot)); [done|].
      exists ot1. split; [|done]. split; [done|]. by intros. }
    wp_intros; intros b st3 [-> H3].
    apply wp_ret_bind.
    eapply wp_seq.
    { apply (RUnlock_rlocked _ _ os); [|done]. by rewrite H3. }
    intros ? st5 H5. apply wp_ret. split; [done|].
    rewrite H5, H3, H1. by apply insert_restore.
Qed.

Lemma IsEqual_spec (st : state) x t ox ot :
  readable st x ox → readable st t ot →
  wp (IsEqual x t) st
     (λ b st', b = ((Z.of_nat (size (m ox)) =? Z.of_nat (size (m ot))) &&
                    bool_decide (dom (m ot) ⊆ dom (m ox))) ∧
               heap st' = heap st).
Proof using range_keys_perm.
  intros [Hx Hxl] Ht%readable_reads. unfold IsEqual. destruct (dyn x).
  - by apply set_IsEqual_spec.
  - apply SetTS_IsEqual_spec; auto.
  - by apply set_IsEqual_spec.
Qed.

(** ** [Each] with a closure that writes to one other object *)

Lemma runheld_insert_rheld x (o : object) q (oq : object) h :
  h !! ptr x = Some o → (dyn x = SetTS → q ≠ ptr x) →
  runheld x o (<[q := oq]> (rheld x o h)) = <[q := oq]> h.
Proof.
  intros Ho Hq. unfold runheld, rheld. case_decide as Hd; [|done].
  specialize (Hq Hd).
  rewrite list_insert_insert_ne by done. f_equal. by apply insert_restore.
Qed.

Lemma length_rheld x (o : object) h : length (rheld x o h) = length h.
Proof. unfold rheld. case_decide; by rewrite ?length_insert. Qed.

Lemma lookup_insert_rheld x (o : object) q (oq oq' : object) h :
  h !! q = Some oq' → <[q := oq]> (rheld x o h) !! q = Some oq.
Proof.
  intros Hq. apply list_lookup_insert_eq. rewrite length_rheld.
  by eapply lookup_lt_Some.
Qed.

Lemma lookup_rheld_other x (o : object) q h :
  (dyn x = SetTS → q ≠ ptr x) → rheld x o h !! q = h !! q.
Proof.
  intros Hq. unfold rheld. case_decide as Hd; [|done].
  apply list_lookup_insert_ne. specialize (Hq Hd). congruence.
Qed.

Lemma Each_other {L} (st : state) x o q oq0 (f : T → L → M (L * bool)) (acc : L)
    (J : list T → object → Prop) :
  readable st x o → (dyn x = SetTS → q ≠ ptr x) →
  heap st !! q = Some oq0 → J [] oq0 →
  (∀ pre k a oq st1,
     J pre oq → k ∈ dom (m o) →
     heap st1 = <[q := oq]> (rheld x o (heap st)) →
     wp (f k a) st1 (λ r st2,
       r.2 = true ∧
       ∃ oq', J (pre ++ [k]) oq' ∧ heap st2 = <[q := oq']> (heap st1))) →
  wp (Each x f acc) st
     (λ _ st', ∃ keys oq', keys ≡ₚ (map_to_list (m o)).*1 ∧ J keys oq' ∧
                           heap st' = <[q := oq']> (heap st)).
Proof using range_keys_perm.
  intros Hx Hq Hoq HJ Hf. apply (Each_spec _ _ o); [done|].
  intros keys st1 Hkeys H1. destruct Hx as [Hx Hxl].
  eapply wp_mono.
  { apply (Each_loop_inv f
      (λ pre st', ∃ oq, J pre oq ∧ heap st' = <[q := oq]> (rheld x o (heap st)))).
    - exists oq0. split; [done|]. rewrite H1. symmetry. apply list_insert_id.
      by rewrite lookup_rheld_other.
    - intros pre k a st2 (oq & HJ2 & H2) Hk.
      eapply wp_mono; [apply (Hf pre k a oq); try done|].
      + by apply (perm_keys_elem (m o) keys).
      + wp_intros; intros r st3 (Hr & oq' & HJ3 & H3). split; [done|].
        exists oq'. split; [done|]. by rewrite H3, H2, list_insert_insert_eq. }
  wp_intros; intros acc' st2 (oq & HJ2 & H2). split.
  - intros Hd. rewrite H2, list_lookup_insert_ne by (specialize (Hq Hd); congruence).
    by apply lookup_rheld_self.
  - intros st3 H3. exists keys, oq. split; [done|]. split; [done|].
    rewrite H3, H2. by apply runheld_insert_rheld.
Qed.

Lemma add_all_snoc pre (k : T) (mp : gmap T ()) :
  add_all (pre ++ [k]) mp = <[k := keyExists]> (add_all pre mp).
Proof. unfold add_all. by rewrite foldl_app. Qed.

Lemma remove_all_snoc pre (k : T) (mp : gmap T ()) :
  remove_all (pre ++ [k]) mp = delete k (remove_all pre mp).
Proof. unfold remove_all. by rewrite foldl_app. Qed.

Lemma dom_add_all_keys keys (mp mt : gmap T ()) :
  keys ≡ₚ (map_to_list mt).*1 →
  dom (add_all keys mp) = dom mp ∪ dom mt.
Proof. intros Hk. by rewrite dom_add_all, (perm_keys_set mt). Qed.

Lemma dom_remove_all_keys keys (mp mt : gmap T ()) :
  keys ≡ₚ (map_to_list mt).*1 →
  dom (remove_all keys mp) = dom mp ∖ dom mt.
Proof. intros Hk. by rewrite dom_remove_all, (perm_keys_set mt). Qed.

(** ** [Merge] and [Separate] *)

Lemma Merge_loop_spec (st : state) s t os ot :
  heap st !! s = Some os → readable st t ot → (dyn t = SetTS → s ≠ ptr t) →
  wp (Each t (λ item (_ : ()),
                store_m s (insert item keyExists) ;;; ret (tt, true)) tt) st
     (λ _ st', ∃ mp, dom mp = dom (m os) ∪ dom (m ot) ∧
                     heap st' = <[s := set_m mp os]> (heap st)).
Proof using range_keys_perm.
  intros Hs Ht Hne. eapply wp_mono.
  { apply (Each_other _ _ ot s os _ _
             (λ pre oq, oq = set_m (add_all pre (m os)) os)); try done.
    { unfold add_all. simpl. by rewrite set_m_id. }
    intros pre k a oq st1 -> Hk H1.
    eapply wp_seq.
    { apply store_m_spec. rewrite H1. by eapply lookup_insert_rheld. }
    intros ? st2 H2. apply wp_ret. split; [done|]. simpl in H2.
    eexists. split; [reflexivity|]. rewrite H2. f_equal.
    unfold set_m. simpl. by rewrite add_all_snoc. }
  wp_intros; intros ? st1 (keys & oq & Hk & -> & H1).
  exists (add_all keys (m os)). split; [|done]. by apply dom_add_all_keys.
Qed.

Lemma Merge_spec (st : state) x t ox ot :
  writable st x ox → readable st t ot →
  (dyn t = SetTS → ptr x ≠ ptr t) →
  wp (Merge x t) st
     (λ _ st', ∃ mp, dom mp = dom (m ox) ∪ dom (m ot) ∧
                     heap st' = <[ptr x := set_m mp ox]> (heap st)).
Proof using range_keys_perm.
  intros [Hx Hxl] Ht Hne. unfold Merge.
  assert (Hbase : wp (set_Merge (ptr x) t) st
     (λ _ st', ∃ mp, dom mp = dom (m ox) ∪ dom (m ot) ∧
                     heap st' = <[ptr x := set_m mp ox]> (heap st))).
  { by apply Merge_loop_spec. }
  destruct (dyn x); try done.
  unfold SetTS_Merge. specialize (Hxl eq_refl).
  eapply wp_seq; [by apply Lock_wlocked|]. intros ? st1 H1.
  destruct Ht as [Ht Htl].
  assert (∃ ot1, readable st1 t ot1 ∧ m ot1 = m ot) as (ot1 & Ht1 & Hm1).
  { destruct (decide (ptr x = ptr t)) as [E|E].
    - exists (wlocked ox). split.
      + split; [rewrite H1, <- E; by eapply lookup_insert_live|].
        intros Hd. by destruct (Hne Hd).
      + simpl. congruence.
    - exists ot. split; [|done]. split; [|done].
      by rewrite H1, list_lookup_insert_ne. }
  eapply wp_seq.
  { apply (Merge_loop_spec _ _ _ (wlocked ox) ot1); try done.
    rewrite H1. by eapply lookup_insert_live. }
  wp_intros; intros ? st2 (mp & Hd & H2).
  eapply wp_mono.
  { apply (Unlock_wlocked _ _ (set_m mp ox)); [|done].
    rewrite H2. eapply lookup_insert_live. rewrite H1. by eapply lookup_insert_live. }
  intros ? st3 H3. simpl in H3. exists mp. split; [by rewrite Hd, Hm1|].
  by rewrite H3, H2, H1, !list_insert_insert_eq.
Qed.

Lemma Separate_spec (st : state) x t ox ot :
  heap st !! ptr x = Some ox → readable st t ot →
  wp (Separate x t) st
     (λ _ st', ∃ mp, dom mp = dom (m ox) ∖ dom (m ot) ∧
                     heap st' = <[ptr x := set_m mp ox]> (heap st)).
Proof using range_keys_perm.
  intros Hx Ht. unfold Separate, set_Separate.
  eapply wp_seq; [by apply List_spec|].
  wp_intros; intros keys st1 [Hk H1].
  eapply wp_mono; [apply set_Remove_spec; by rewrite H1|].
  intros ? st2 H2. simpl in H2. exists (remove_all keys (m ox)).
  split; [by apply dom_remove_all_keys|]. by rewrite H2, H1.
Qed.

(** ** [Copy] *)

Lemma insert_snoc (h : list object) o o' :
  <[length h := o']> (h ++ [o]) = h ++ [o'].
Proof.
  rewrite insert_app_r_alt by lia. by rewrite Nat.sub_diag.
Qed.

Lemma lookup_snoc (h : list object) o : (h ++ [o]) !! length h = Some o.
Proof. by rewrite list_lookup_middle. Qed.

Lemma newNonTS_spec (st : state) :
  wp newNonTS st
     (λ u st', u = {| dyn := SetNonTS; ptr := length (heap st) |} ∧
               heap st' = heap st ++ [{| m := ∅; l := unlocked |}]).
Proof.
  unfold newNonTS. eapply wp_seq; [apply alloc_spec|].
  wp_intros; intros p st1 [-> H1]. by apply wp_ret.
Qed.

Lemma newTS_spec (st : state) :
  wp newTS st
     (λ u st', u = {| dyn := SetTS; ptr := length (heap st) |} ∧
               heap st' = heap st ++ [{| m := ∅; l := unlocked |}]).
Proof.
  unfold newTS. eapply wp_seq; [apply alloc_spec|].
  wp_intros; intros p st1 [-> H1]. by apply wp_ret.
Qed.

Lemma add_all_keys_empty keys (mp : gmap T ()) :
  keys ≡ₚ (map_to_list mp).*1 → add_all keys ∅ = mp.
Proof.
  clear range_keys_perm.
  intros Hk. apply unit_map_eq.
  rewrite (dom_add_all_keys _ _ mp) by done. set_solver.
Qed.

(** The loop of [Copy], for either [Add]: one item at a time into the
    new object, the last of the heap [h]. *)
Lemma Copy_loop_spec (add : nat → list T → M ()) (h : list object) keys
    (st : state) :
  (∀ (st1 : state) items o,
     heap st1 !! length h = Some o → l o = unlocked →
     wp (add (length h) items) st1
        (λ _ st2, heap st2 =
                  <[length h := set_m (add_all items (m o)) o]> (heap st1))) →
  heap st = h ++ [{| m := ∅; l := unlocked |}] →
  wp (for_each (λ item, add (length h) [item]) keys) st
     (λ _ st', heap st' = h ++ [{| m := add_all keys ∅; l := unlocked |}]).
Proof.
  intros Hadd H0.
  apply (for_each_inv _
    (λ pre st', heap st' = h ++ [{| m := add_all pre ∅; l := unlocked |}]));
    [done|].
  intros pre k st1 _ H1. eapply wp_mono.
  - apply Hadd; [rewrite H1; apply lookup_snoc|done].
  - intros ? st2 H2. simpl in H2. rewrite H2, H1, insert_snoc.
    unfold set_m. simpl. by rewrite add_all_snoc.
Qed.

Lemma set_Copy_spec (st : state) s o :
  heap st !! s = Some o →
  wp (set_Copy s) st
     (λ u st', u = {| dyn := SetNonTS; ptr := length (heap st) |} ∧
               heap st' = heap st ++ [{| m := m o; l := unlocked |}]).
Proof using range_keys_perm.
  intros Ho. unfold set_Copy.
  eapply wp_seq; [apply newNonTS_spec|].
  wp_intros; intros u st1 [-> H1]. simpl.
  eapply wp_seq.
  { apply range_m_spec. rewrite H1. by apply lookup_app_l_Some. }
  wp_intros; intros keys st2 [Hk H2].
  eapply wp_seq.
  { apply (Copy_loop_spec set_Add); [|by rewrite H2, H1].
    intros st3 items o3 Ho3 _. by apply set_Add_spec. }
  intros ? st3 H3. apply wp_ret. split; [done|].
  simpl in H3. rewrite H3, (add_all_keys_empty keys (m o)); [done|].
  rewrite Hk. apply range_keys_perm.
Qed.

Lemma SetTS_Copy_spec (st : state) s o :
  heap st !! s = Some o →
  wp (SetTS_Copy s) st
     (λ u st', u = {| dyn := SetTS; ptr := length (heap st) |} ∧
               heap st' = heap st ++ [{| m := m o; l := unlocked |}]).
Proof using range_keys_perm.
  intros Ho. unfold SetTS_Copy.
  eapply wp_seq; [apply newTS_spec|].
  wp_intros; intros u st1 [-> H1]. simpl.
  eapply wp_seq.
  { apply range_m_spec. rewrite H1. by apply lookup_app_l_Some. }
  wp_intros; intros keys st2 [Hk H2].
  eapply wp_seq.
  { apply (Copy_loop_spec SetTS_Add); [|by rewrite H2, H1].
    intros st3 items o3 Ho3 Hl3. by apply SetTS_Add_spec. }
  intros ? st3 H3. apply wp_ret. split; [done|].
  simpl in H3. rewrite H3, (add_all_keys_empty keys (m o)); [done|].
  rewrite Hk. apply range_keys_perm.
Qed.

Lemma Copy_spec (st : state) x o :
  heap st !! ptr x = Some o →
  wp (Copy x) st
     (λ u st', u = {| dyn := copy_dyn (dyn x); ptr := length (heap st) |} ∧
               heap st' = heap st ++ [{| m := m o; l := unlocked |}]).
Proof using range_keys_perm.
  intros Ho. unfold Copy. destruct (dyn x); simpl.
  - by apply set_Copy_spec.
  - by apply SetTS_Copy_spec.
  - by apply set_Copy_spec.
Qed.

(** ** Quiet states *)

Lemma quiet_lookup (st : state) x :
  quiet st → live st x →
  ∃ o, heap st !! ptr x = Some o ∧ l o = unlocked ∧ elems st x = dom (m o).
Proof.
  intros Hq Hx. destruct (lookup_lt_is_Some_2 _ _ Hx) as [o Ho].
  exists o. split; [done|]. split.
  - unfold quiet in Hq. rewrite Forall_lookup in Hq. by eapply Hq.
  - unfold elems. by rewrite Ho.
Qed.

Lemma quiet_readable (st : state) x o :
  heap st !! ptr x = Some o → l o = unlocked → readable st x o.
Proof. intros Ho Hl. split; [done|]. intros _. by rewrite Hl. Qed.

Lemma quiet_writable (st : state) x o :
  heap st !! ptr x = Some o → l o = unlocked → writable st x o.
Proof. intros Ho Hl. by split. Qed.

Lemma quiet_snoc (st : state) st' mp :
  quiet st → heap st' = heap st ++ [{| m := mp; l := unlocked |}] → quiet st'.
Proof.
  unfold quiet. intros Hq ->. apply Forall_app. split; [done|].
  by apply Forall_singleton.
Qed.

Lemma live_snoc (st : state) st' x o :
  live st x → heap st' = heap st ++ [o] → live st' x.
Proof. unfold live. intros Hx ->. rewrite length_app. lia. Qed.

Lemma elems_snoc (st : state) st' x o :
  live st x → heap st' = heap st ++ [o] → elems st' x = elems st x.
Proof. unfold live, elems. intros Hx ->. by rewrite lookup_app_l. Qed.

Lemma elems_new (st : state) st' d mp :
  heap st' = heap st ++ [{| m := mp; l := unlocked |}] →
  elems st' {| dyn := d; ptr := length (heap st) |} = dom mp.
Proof. unfold elems. intros ->. simpl. by rewrite lookup_snoc. Qed.

(** ** [Union] and [Difference] *)

Lemma Union_loop_spec (st : state) u t ou ot :
  heap st !! ptr u = Some ou → l ou = unlocked → readable st t ot →
  ptr u ≠ ptr t →
  wp (Each t (λ item (_ : ()), Add u [item] ;;; ret (tt, true)) tt) st
     (λ _ st', ∃ mp, dom mp = dom (m ou) ∪ dom (m ot) ∧
                     heap st' = <[ptr u := set_m mp ou]> (heap st)).
Proof using range_keys_perm.
  intros Hu Hul Ht Hne. eapply wp_mono.
  { apply (Each_other _ _ ot (ptr u) ou _ _
             (λ pre oq, oq = set_m (add_all pre (m ou)) ou)); try done.
    { unfold add_all. simpl. by rewrite set_m_id. }
    intros pre k a oq st1 -> Hk H1.
    eapply wp_seq.
    { apply (Add_spec _ _ _ (set_m (add_all pre (m ou)) ou)).
      split; [|done]. rewrite H1. by eapply lookup_insert_rheld. }
    intros ? st2 H2. apply wp_ret. split; [done|]. simpl in H2.
    eexists. split; [reflexivity|]. rewrite H2. f_equal.
    unfold set_m. simpl. by rewrite add_all_snoc. }
  wp_intros; intros ? st1 (keys & oq & Hk & -> & H1).
  exists (add_all keys (m ou)). split; [|done]. by apply dom_add_all_keys.
Qed.

Lemma Union_spec (st : state) set1 set2 sets :
  quiet st → live st set1 → live st set2 → Forall (live st) sets →
  wp (Union set1 set2 sets) st
     (λ u st',
        u = {| dyn := copy_dyn (dyn set1); ptr := length (heap st) |} ∧
        ∃ mp, dom mp = elems st set1 ∪ elems st set2 ∪ ⋃ (elems st <$> sets) ∧
              heap st' = heap st ++ [{| m := mp; l := unlocked |}]).
Proof using range_keys_perm.
  intros Hq H1 H2 Hsets. unfold Union.
  destruct (quiet_lookup _ _ Hq H1) as (o1 & Ho1 & Hl1 & E1).
  destruct (quiet_lookup _ _ Hq H2) as (o2 & Ho2 & Hl2 & E2).
  eapply wp_seq; [by apply Copy_spec|].
  wp_intros; intros u st1 [-> Hst1].
  set (u := {| dyn := copy_dyn (dyn set1); ptr := length (heap st) |}).
  assert (Hstep : ∀ t st2 mp,
    live st t →
    heap st2 = heap st ++ [{| m := mp; l := unlocked |}] →
    wp (Each t (λ item (_ : ()), Add u [item] ;;; ret (tt, true)) tt) st2
       (λ _ st3, ∃ mp', dom mp' = dom mp ∪ elems st t ∧
                        heap st3 = heap st ++ [{| m := mp'; l := unlocked |}])).
  { intros t st2 mp Ht Hst2.
    destruct (quiet_lookup _ _ Hq Ht) as (ot & Hot & Hlt & Et).
    eapply wp_mono.
    - apply (Union_loop_spec _ u t {| m := mp; l := unlocked |} ot).
      + rewrite Hst2. apply lookup_snoc.
      + done.
      + apply quiet_readable; [|done]. rewrite Hst2. by apply lookup_app_l_Some.
      + simpl. unfold live in Ht. lia.
    - wp_intros; intros ? st3 (mp' & Hd & Hst3). exists mp'.
      split; [by rewrite Hd, Et|]. rewrite Hst3, Hst2. subst u. simpl. by rewrite insert_snoc. }
  eapply wp_seq; [by apply (Hstep set2 st1 (m o1))|].
  wp_intros; intros ? st2 (mp2 & Hd2 & Hst2).
  eapply wp_seq.
  { apply (for_each_inv _
      (λ pre st', ∃ mp, dom mp = elems st set1 ∪ elems st set2 ∪ ⋃ (elems st <$> pre) ∧
                        heap st' = heap st ++ [{| m := mp; l := unlocked |}])).
    - exists mp2. split; [|done]. rewrite Hd2, E1. simpl. set_solver.
    - intros pre t st3 Ht (mp & Hd & Hst3).
      rewrite Forall_forall in Hsets.
      eapply wp_mono; [apply (Hstep t st3 mp); auto|].
      wp_intros; intros ? st4 (mp' & Hd' & Hst4). exists mp'. split; [|done].
      rewrite Hd', Hd, fmap_app, union_list_app_L. simpl. set_solver. }
  wp_intros; intros ? st3 (mp & Hd & Hst3).
  apply wp_ret. split; [done|]. by exists mp.
Qed.

Lemma Difference_spec (st : state) set1 set2 sets :
  quiet st → live st set1 → live st set2 → Forall (live st) sets →
  wp (Difference set1 set2 sets) st
     (λ s st',
        s = {| dyn := copy_dyn (dyn set1); ptr := length (heap st) |} ∧
        ∃ mp, dom mp = elems st set1 ∖ (elems st set2 ∪ ⋃ (elems st <$> sets)) ∧
              heap st' = heap st ++ [{| m := mp; l := unlocked |}]).
Proof using range_keys_perm.
  intros Hq H1 H2 Hsets. unfold Difference.
  destruct (quiet_lookup _ _ Hq H1) as (o1 & Ho1 & Hl1 & E1).
  eapply wp_seq; [by apply Copy_spec|].
  wp_intros; intros u st1 [-> Hst1].
  set (u := {| dyn := copy_dyn (dyn set1); ptr := length (heap st) |}).
  assert (Hstep : ∀ t st2 mp,
    live st t →
    heap st2 = heap st ++ [{| m := mp; l := unlocked |}] →
    wp (Separate u t) st2
       (λ _ st3, ∃ mp', dom mp' = dom mp ∖ elems st t ∧
                        heap st3 = heap st ++ [{| m := mp'; l := unlocked |}])).
  { intros t st2 mp Ht Hst2.
    destruct (quiet_lookup _ _ Hq Ht) as (ot & Hot & Hlt & Et).
    eapply wp_mono.
    - apply (Separate_spec _ u t {| m := mp; l := unlocked |} ot).
      + rewrite Hst2. apply lookup_snoc.
      + apply quiet_readable; [|done]. rewrite Hst2. by apply lookup_app_l_Some.
    - wp_intros; intros ? st3 (mp' & Hd & Hst3). exists mp'.
      split; [by rewrite Hd, Et|]. rewrite Hst3, Hst2. subst u. simpl. by rewrite insert_snoc. }
  eapply wp_seq; [by apply (Hstep set2 st1 (m o1))|].
  wp_intros; intros ? st2 (mp2 & Hd2 & Hst2).
  eapply wp_seq.
  { apply (for_each_inv _
      (λ pre st', ∃ mp,
         dom mp = elems st set1 ∖ (elems st set2 ∪ ⋃ (elems st <$> pre)) ∧
         heap st' = heap st ++ [{| m := mp; l := unlocked |}])).
    - exists mp2. split; [|done]. rewrite Hd2, E1. simpl. set_solver.
    - intros pre t st3 Ht (mp & Hd & Hst3).
      rewrite Forall_forall in Hsets.
      eapply wp_mono; [apply (Hstep t st3 mp); auto|].
      wp_intros; intros ? st4 (mp' & Hd' & Hst4). exists mp'. split; [|done].
      rewrite Hd', Hd, fmap_app, union_list_app_L. simpl. set_solver. }
  wp_intros; intros ? st3 (mp & Hd & Hst3).
  apply wp_ret. split; [done|]. by exists mp.
Qed.

(** ** [Intersection] *)

Lemma Has_one_spec (st : state) t ot k :
  readable st t ot →
  wp (Has t [k]) st
     (λ b st', b = bool_decide (k ∈ dom (m ot)) ∧ heap st' = heap st).
Proof.
  intros Ht. eapply wp_mono; [by apply Has_spec|].
  wp_intros; intros b st1 [-> H1]. split; [|done].
  simpl. unfold has_all. simpl. by rewrite andb_true_r, is_Some_dom.
Qed.

Lemma cond_Remove_spec (st : state) result oq (c : bool) k :
  heap st !! ptr result = Some oq → l oq = unlocked →
  wp (if c then Remove result [k] else ret tt) st
     (λ _ st', ∃ mp',
        dom mp' = (if c then dom (m oq) ∖ {[k]} else dom (m oq)) ∧
        heap st' = <[ptr result := set_m mp' oq]> (heap st)).
Proof.
  intros Ho Hl. destruct c.
  - eapply wp_mono; [by apply (Remove_spec _ _ _ oq)|].
    intros ? st1 H1. simpl in H1. eexists. split; [|exact H1].
    unfold remove_all. simpl. by rewrite dom_delete_L.
  - apply wp_ret. exists (m oq). split; [done|].
    by rewrite set_m_id, list_insert_id.
Qed.

Lemma elems_snoc_list (st : state) st' (sets : list Set_) o :
  Forall (live st) sets → heap st' = heap st ++ [o] →
  elems st' <$> sets = elems st <$> sets.
Proof.
  intros Hs Hh. apply list_fmap_ext. intros i t Ht.
  eapply elems_snoc; [|done]. rewrite Forall_lookup in Hs. by eapply Hs.
Qed.

Lemma in_all_snoc (st : state) set1 set2 seen t e :
  in_all st set1 set2 (seen ++ [t]) e ↔
  in_all st set1 set2 seen e ∧ e ∈ elems st t.
Proof. unfold in_all. rewrite Forall_app, Forall_singleton. tauto. Qed.

Lemma Intersection_spec (st : state) set1 set2 sets :
  quiet st → live st set1 → live st set2 → Forall (live st) sets →
  wp (Intersection set1 set2 sets) st
     (λ r st',
        r = {| dyn := copy_dyn (dyn set1); ptr := S (length (heap st)) |} ∧
        ∃ mA mR,
          heap st' = heap st ++ [{| m := mA; l := unlocked |};
                                 {| m := mR; l := unlocked |}] ∧
          dom mA = elems st set1 ∪ elems st set2 ∪ ⋃ (elems st <$> sets) ∧
          dom mR = filter (in_all st set1 set2 sets) (dom mA)).
Proof using range_keys_perm.
  intros Hq H1 H2 Hsets. unfold Intersection.
  eapply wp_seq; [by apply Union_spec|].
  wp_intros; intros all st1 (-> & mA & HdA & Hst1).
  assert (Hq1 : quiet st1) by by eapply quiet_snoc.
  eapply wp_seq.
  { apply Union_spec; [done|by eapply live_snoc..|].
    eapply Forall_impl; [exact Hsets|]. intros t Ht. by eapply live_snoc. }
  wp_intros; intros result st2 (-> & mR & HdR & Hst2).
  rewrite (elems_snoc st st1 set1 _ H1 Hst1), (elems_snoc st st1 set2 _ H2 Hst1),
    (elems_snoc_list st st1 sets _ Hsets Hst1) in HdR.
  set (all := {| dyn := copy_dyn (dyn set1); ptr := length (heap st) |}).
  set (result := {| dyn := copy_dyn (dyn set1); ptr := length (heap st1) |}).
  set (A := {| m := mA; l := unlocked |}).
  set (R := {| m := mR; l := unlocked |}).
  assert (Hlen1 : length (heap st1) = S (length (heap st))).
  { rewrite Hst1, length_app. simpl. lia. }
  assert (HA : heap st2 !! ptr all = Some A).
  { rewrite Hst2, Hst1. simpl. rewrite lookup_app_l by (rewrite length_app; simpl; lia).
    apply lookup_snoc. }
  assert (HR : heap st2 !! ptr result = Some R).
  { rewrite Hst2. simpl. apply lookup_snoc. }
  assert (Hne : ptr result ≠ ptr all) by (simpl; lia).
  (* every input is where it was, whatever the loop has done to [result] *)
  assert (Hframe : ∀ t oq st3,
    live st t →
    heap st3 = <[ptr result := oq]> (rheld all A (heap st2)) →
    ∃ ot, readable st3 t ot ∧ elems st t = dom (m ot)).
  { intros t oq st3 Ht H3.
    destruct (quiet_lookup _ _ Hq Ht) as (ot & Hot & Hlt & Et).
    exists ot. split; [|done]. apply quiet_readable; [|done].
    unfold live in Ht.
    rewrite H3, list_lookup_insert_ne by (simpl; lia).
    rewrite lookup_rheld_other by (simpl; lia).
    rewrite Hst2, Hst1, <- app_assoc. by apply lookup_app_l_Some. }
  eapply wp_seq.
  { apply (Each_other _ all A (ptr result) R _ _
      (λ pre oq, ∃ mp, oq = {| m := mp; l := unlocked |} ∧
         ∀ e, e ∈ dom mp ↔ e ∈ dom mA ∧ (e ∈ pre → in_all st set1 set2 sets e))).
    { by apply quiet_readable. }
    { done. }
    { done. }
    { exists mR. split; [done|]. intros e. rewrite HdR, HdA. set_solver. }
    intros pre k a oq st3 (mp & -> & Hmp) Hk H3.
    assert (Hres : heap st3 !! ptr result = Some {| m := mp; l := unlocked |}).
    { rewrite H3. by eapply lookup_insert_rheld. }
    (* the test on [set1] and [set2] *)
    eapply wp_seq.
    { instantiate (1 := λ missing st4,
        missing = negb (bool_decide (k ∈ elems st set1 ∧ k ∈ elems st set2)) ∧
        heap st4 = heap st3).
      destruct (Hframe set1 _ st3 H1 H3) as (o1 & Hr1 & E1).
      destruct (Hframe set2 _ st3 H2 H3) as (o2 & Hr2 & E2).
      eapply wp_seq; [by apply Has_one_spec|].
      wp_intros; intros b1 st4 [-> H4]. rewrite E1, E2.
      destruct (bool_decide_reflect (k ∈ dom (m o1))) as [Hk1|Hk1]; simpl.
      - eapply wp_seq.
        { apply (Has_one_spec _ _ o2). destruct Hr2. split; by rewrite ?H4. }
        wp_intros; intros b2 st5 [-> H5]. apply wp_ret. split; [|by rewrite H5].
        f_equal. apply bool_decide_ext. tauto.
      - apply wp_ret. split; [|done]. symmetry. apply negb_true_iff.
        apply bool_decide_eq_false. tauto. }
    wp_intros; intros missing st4 [-> H4].
    eapply wp_seq.
    { apply (cond_Remove_spec _ result {| m := mp; l := unlocked |}); [|done].
      by rewrite H4. }
    wp_intros; intros ? st5 (mp5 & Hd5 & H5). simpl in Hd5.
    (* the tests on the other sets *)
    eapply wp_seq.
    { apply (for_each_inv _
        (λ seen st', ∃ mp',
           dom mp' = (if decide (in_all st set1 set2 seen k) then dom mp
                      else dom mp ∖ {[k]}) ∧
           heap st' = <[ptr result := {| m := mp'; l := unlocked |}]>
                        (rheld all A (heap st2)))).
      - exists mp5. split.
        + rewrite Hd5. unfold in_all.
          destruct (bool_decide_reflect (k ∈ elems st set1 ∧ k ∈ elems st set2))
            as [Hb|Hb]; simpl.
          * rewrite decide_True; [done|]. destruct Hb. by repeat split.
          * rewrite decide_False; [done|]. tauto.
        + rewrite H5, H4, H3. by rewrite list_insert_insert_eq.
      - intros seen t st6 Ht (mp6 & Hd6 & H6).
        assert (Ht' : live st t) by (rewrite Forall_forall in Hsets; auto).
        destruct (Hframe t _ st6 Ht' H6) as (ot & Hrt & Et).
        eapply wp_seq; [by apply Has_one_spec|].
        wp_intros; intros b st7 [-> H7].
        eapply wp_mono.
        { apply (cond_Remove_spec _ result {| m := mp6; l := unlocked |}); [|done].
          rewrite H7, H6. by eapply lookup_insert_rheld. }
        wp_intros; intros ? st8 (mp8 & Hd8 & H8). simpl in Hd8.
        exists mp8. split.
        + rewrite Hd8, Hd6, <- Et.
          pose proof (in_all_snoc st set1 set2 seen t k) as Hsnoc.
          destruct (decide (in_all st set1 set2 seen k)) as [Hs|Hs],
            (decide (in_all st set1 set2 (seen ++ [t]) k)) as [Hs'|Hs'],
            (bool_decide_reflect (k ∈ elems st t)) as [Hb|Hb];
            simpl; try tauto; set_solver.
        + rewrite H8, H7, H6. by rewrite list_insert_insert_eq. }
    wp_intros; intros ? st6 (mp6 & Hd6 & H6).
    apply wp_ret. split; [done|].
    exists {| m := mp6; l := unlocked |}. split.
    + exists mp6. split; [done|]. intros e. rewrite Hd6.
      rewrite elem_of_app, list_elem_of_singleton.
      specialize (Hmp e). case_decide as Hin.
      * rewrite Hmp. split; [|tauto]. intros [? Hpre]. split; [done|].
        intros [?| ->]; auto.
      * rewrite elem_of_difference, elem_of_singleton, Hmp.
        split; [|intros [? Hx]; split; [tauto|]; intros ->; apply Hin; auto].
        intros [[? Hpre] Hek]. split; [done|]. intros [?|?]; [auto|done].
    + by rewrite H6, H3, list_insert_insert_eq. }
  wp_intros; intros ? st3 (keys & oq & Hkeys & (mp & -> & Hmp) & H3).
  apply wp_ret. split; [unfold result; by rewrite Hlen1|].
  exists mA, mp. split.
  { rewrite H3, Hst2. unfold result. simpl. rewrite insert_snoc, Hst1, <- app_assoc.
    done. }
  split; [done|]. apply set_eq. intros e.
  rewrite elem_of_filter, Hmp.
  split.
  - intros [He Hin]. split; [|done]. apply Hin.
    by apply (perm_keys_elem mA keys).
  - intros [Hin He]. split; [done|]. done.
Qed.

(** ** The constructor *)

Lemma New_spec (st : state) (setType : SetType) :
  wp (New setType) st
     (λ x st',
        x = {| dyn := (if setType =? NonThreadSafe then SetNonTS else SetTS);
               ptr := length (heap st) |} ∧
        heap st' = heap st ++ [{| m := ∅; l := unlocked |}]).
Proof.
  unfold New. destruct (setType =? NonThreadSafe).
  - apply newNonTS_spec.
  - apply newTS_spec.
Qed.

(** * The properties *)

(** C10.  [New] returns a non-thread-safe set for the value
    [NonThreadSafe] and a thread-safe one for every other integer, named
    or not; the set is new and empty. *)
Theorem New_variant (st : state) (setType : SetType) :
  wp (New setType) st
     (λ x st',
        (setType = NonThreadSafe → dyn x = SetNonTS) ∧
        (setType ≠ NonThreadSafe → dyn x = SetTS) ∧
        ¬ live st x ∧ live st' x ∧ elems st' x = ∅).
Proof.
  eapply wp_mono; [apply New_spec|].
  wp_intros; intros x st' [-> H1]. simpl. repeat split.
  - intros ->. done.
  - intros Hne. apply Z.eqb_neq in Hne. by rewrite Hne.
  - unfold live. simpl. lia.
  - unfold live. rewrite H1, length_app. simpl. lia.
  - unfold elems. simpl. rewrite H1, lookup_snoc. simpl. apply dom_empty_L.
Qed.

(** C7.  [Has] without arguments returns false; with one argument or
    more it returns true exactly when every one of them is an element of
    the set.  The heap is left as it was. *)
Theorem Has_every_item (st : state) (x : Set_) (items : list T) :
  quiet st → live st x →
  wp (Has x items) st
     (λ b st',
        (items = [] → b = false) ∧
        (items ≠ [] → (b = true ↔ ∀ e, e ∈ items → e ∈ elems st x)) ∧
        heap st' = heap st).
Proof.
  intros Hq Hx. destruct (quiet_lookup _ _ Hq Hx) as (o & Ho & Hl & E).
  eapply wp_mono; [apply (Has_spec _ _ _ o); by apply quiet_readable|].
  wp_intros; intros b st' [-> H1]. split; [|split; [|done]].
  - intros ->. done.
  - intros Hne. destruct items as [|i items]; [done|]. simpl Nat.eqb. cbv iota.
    unfold has_all. rewrite forallb_forall, E. split.
    + intros Hall e He. apply list_elem_of_In, Hall in He.
      by apply bool_decide_eq_true_1, elem_of_dom in He.
    + intros Hall e He. apply bool_decide_eq_true_2, elem_of_dom, Hall.
      by apply list_elem_of_In.
Qed.

(** C8.  [Pop] on an empty set returns the zero value with [false] and
    changes nothing; on a set that is not empty it returns [true] with
    one of the elements, and afterwards the set holds the other elements
    and every other object is as it was. *)
Theorem Pop_some_element (st : state) (x : Set_) :
  quiet st → live st x →
  wp (Pop x) st
     (λ r st',
        (elems st x = ∅ → r = (zeroVal, false) ∧ heap st' = heap st) ∧
        (elems st x ≠ ∅ →
           ∃ item, r = (item, true) ∧ item ∈ elems st x ∧
                   elems st' x = elems st x ∖ {[item]} ∧
                   ∀ p, p ≠ ptr x → heap st' !! p = heap st !! p)).
Proof using range_keys_perm.
  intros Hq Hx. destruct (quiet_lookup _ _ Hq Hx) as (o & Ho & Hl & E).
  eapply wp_mono; [apply (Pop_spec _ _ o); by apply quiet_writable|].
  wp_intros; intros r st' [(Hm & -> & H1)|(item & -> & Hi & H1)]; rewrite E.
  - split; [done|]. intros Hne. destruct Hne. rewrite Hm. apply dom_empty_L.
  - split; [intros He; rewrite He in Hi; set_solver|]. intros _.
    exists item. repeat split; [done| |].
    + unfold elems. rewrite H1. erewrite lookup_insert_live by done.
      simpl. by rewrite dom_delete_L.
    + intros p Hp. rewrite H1. by apply list_lookup_insert_ne.
Qed.

(** C2.  [IsEqual] returns true exactly when the two sets have the same
    size and every element of the argument is in the receiver, which is
    to say when they have the same elements.  The heap is left as it
    was. *)
Theorem IsEqual_same_elements (st : state) (s t : Set_) :
  quiet st → live st s → live st t →
  wp (IsEqual s t) st
     (λ b st',
        (b = true ↔
           size (elems st s) = size (elems st t) ∧
           ∀ e, e ∈ elems st t → e ∈ elems st s) ∧
        (b = true ↔ elems st s = elems st t) ∧
        heap st' = heap st).
Proof using range_keys_perm.
  intros Hq Hs Ht.
  destruct (quiet_lookup _ _ Hq Hs) as (os & Hos & Hls & Es).
  destruct (quiet_lookup _ _ Hq Ht) as (ot & Hot & Hlt & Et).
  eapply wp_mono.
  { apply (IsEqual_spec _ _ _ os ot); by apply quiet_readable. }
  wp_intros; intros b st' [-> H1]. rewrite Es, Et, !size_dom.
  assert (Hiff : (Z.of_nat (size (m os)) =? Z.of_nat (size (m ot))) &&
                 bool_decide (dom (m ot) ⊆ dom (m os)) = true ↔
                 size (m os) = size (m ot) ∧
                 ∀ e, e ∈ dom (m ot) → e ∈ dom (m os)).
  { rewrite andb_true_iff, Z.eqb_eq, bool_decide_eq_true, Nat2Z.inj_iff.
    reflexivity. }
  split; [done|]. split; [|done]. rewrite Hiff. split.
  - intros [Hsz Hsub].
    symmetry. apply set_subseteq_size_eq; [done|]. rewrite !size_dom. lia.
  - intros Heq. split; [|by rewrite Heq].
    by rewrite <- !(size_dom (D := gset T)), Heq.
Qed.

(** ** Sequences of [Add] and [Remove] *)

Lemma added_and_kept_nil (e : T) : ¬ added_and_kept [] e.
Proof. intros (pre & items & post & E & _). by destruct pre. Qed.

Lemma added_and_kept_snoc_add (ops : list op) items (e : T) :
  added_and_kept (ops ++ [OpAdd items]) e ↔ added_and_kept ops e ∨ e ∈ items.
Proof.
  split.
  - intros (pre & it & post & E & He & Hpost).
    destruct post as [|y post _] using rev_ind.
    + apply app_inj_tail in E as [_ E]. inversion E; subst. by right.
    + rewrite app_comm_cons, app_assoc in E.
      apply app_inj_tail in E as [-> _]. left.
      exists pre, it, post. repeat split; [done|].
      intros items' Hin. apply Hpost, elem_of_app. by left.
  - intros [(pre & it & post & -> & He & Hpost)|He].
    + exists pre, it, (post ++ [OpAdd items]).
      rewrite <- app_assoc. repeat split; [done|].
      intros items' [Hin|Hin]%elem_of_app; [by apply Hpost|].
      by apply list_elem_of_singleton in Hin.
    + exists ops, items, []. repeat split; [done|].
      intros items' Hin. by apply elem_of_nil in Hin.
Qed.

Lemma added_and_kept_snoc_remove (ops : list op) items (e : T) :
  added_and_kept (ops ++ [OpRemove items]) e ↔ added_and_kept ops e ∧ e ∉ items.
Proof.
  split.
  - intros (pre & it & post & E & He & Hpost).
    destruct post as [|y post _] using rev_ind.
    + apply app_inj_tail in E as [_ E]. inversion E.
    + rewrite app_comm_cons, app_assoc in E.
      apply app_inj_tail in E as [-> <-]. split.
      * exists pre, it, post. repeat split; [done|].
        intros items' Hin. apply Hpost, elem_of_app. by left.
      * apply Hpost, elem_of_app. right. by apply list_elem_of_singleton.
  - intros [(pre & it & post & -> & He & Hpost) Hne].
    exists pre, it, (post ++ [OpRemove items]).
    rewrite <- app_assoc. repeat split; [done|].
    intros items' [Hin|Hin]%elem_of_app; [by apply Hpost|].
    apply list_elem_of_singleton in Hin. by inversion Hin; subst.
Qed.

(** C1.  After any sequence of [Add] and [Remove] calls on a new set,
    [Size] is the number of distinct elements that some call added and
    no later call removed. *)
Theorem Size_counts_kept (st : state) (setType : SetType) (ops : list op) :
  wp (size_after setType ops) st
     (λ n _, ∃ kept : list T,
               NoDup kept ∧
               (∀ e, e ∈ kept ↔ added_and_kept ops e) ∧
               n = Z.of_nat (length kept)).
Proof.
  clear range_keys_perm.
  unfold size_after.
  eapply wp_seq; [apply New_spec|].
  wp_intros; intros s st1 [-> H1].
  set (s := {| dyn := (if setType =? NonThreadSafe then SetNonTS else SetTS);
               ptr := length (heap st) |}).
  eapply wp_seq.
  { apply (for_each_inv _
      (λ pre st', ∃ mp, heap st' = heap st ++ [{| m := mp; l := unlocked |}] ∧
                        ∀ e, e ∈ dom mp ↔ added_and_kept pre e)).
    - exists ∅. split; [done|]. intros e. rewrite dom_empty_L.
      split; [set_solver|]. intros Hk. by apply added_and_kept_nil in Hk.
    - intros pre o st2 _ (mp & H2 & Hmp).
      assert (Hw : writable st2 s {| m := mp; l := unlocked |}).
      { apply quiet_writable; [|done]. rewrite H2. apply lookup_snoc. }
      destruct o as [items|items]; simpl.
      + eapply wp_mono; [by apply Add_spec|].
        intros ? st3 H3. simpl in H3. eexists. split.
        * rewrite H3, H2. unfold s. simpl. by rewrite insert_snoc.
        * intros e. rewrite dom_add_all, added_and_kept_snoc_add, <- Hmp.
          set_solver.
      + eapply wp_mono; [by apply Remove_spec|].
        intros ? st3 H3. simpl in H3. eexists. split.
        * rewrite H3, H2. unfold s. simpl. by rewrite insert_snoc.
        * intros e. rewrite dom_remove_all, added_and_kept_snoc_remove, <- Hmp.
          set_solver. }
  wp_intros; intros ? st2 (mp & H2 & Hmp).
  eapply wp_mono.
  { apply (Size_spec _ s {| m := mp; l := unlocked |}).
    apply quiet_readable; [|done]. rewrite H2. apply lookup_snoc. }
  wp_intros; intros n st3 [-> H3]. simpl.
  exists (elements (dom mp)). split; [apply NoDup_elements|]. split.
  - intros e. by rewrite elem_of_elements.
  - by rewrite <- (size_dom (D := gset T)).
Qed.

(** ** Heaps that grow *)

Lemma grows_same (st st' : state) : heap st' = heap st → grows st st'.
Proof. intros E. exists []. by rewrite app_nil_r. Qed.

Lemma grows_snoc (st st' : state) mp :
  heap st' = heap st ++ [{| m := mp; l := unlocked |}] → grows st st'.
Proof. intros E. eexists. split; [done|]. by apply Forall_singleton. Qed.

Lemma grows_trans (st1 st2 st3 : state) :
  grows st1 st2 → grows st2 st3 → grows st1 st3.
Proof.
  intros (e1 & H1 & F1) (e2 & H2 & F2). exists (e1 ++ e2). split.
  - by rewrite H2, H1, app_assoc.
  - by apply Forall_app.
Qed.

Lemma grows_quiet (st st' : state) : quiet st → grows st st' → quiet st'.
Proof.
  unfold quiet. intros Hq (ext & -> & Hext). by apply Forall_app.
Qed.

Lemma grows_live (st st' : state) x : live st x → grows st st' → live st' x.
Proof. unfold live. intros Hx (ext & -> & _). rewrite length_app. lia. Qed.

Lemma grows_elems (st st' : state) x :
  live st x → grows st st' → elems st' x = elems st x.
Proof.
  unfold live, elems. intros Hx (ext & -> & _). by rewrite lookup_app_l.
Qed.

(** ** The calls in terms of [elems] *)

Lemma Size_elems (st : state) x :
  quiet st → live st x →
  wp (Size x) st
     (λ n st', n = Z.of_nat (size (elems st x)) ∧ heap st' = heap st).
Proof.
  intros Hq Hx. destruct (quiet_lookup _ _ Hq Hx) as (o & Ho & Hl & E).
  eapply wp_mono; [apply (Size_spec _ _ o); by apply quiet_readable|].
  wp_intros; intros n st' [-> H1]. by rewrite E, size_dom.
Qed.

Lemma IsEmpty_elems (st : state) x :
  live st x →
  wp (IsEmpty x) st
     (λ b st', b = bool_decide (elems st x = ∅) ∧ heap st' = heap st).
Proof.
  intros Hx. destruct (lookup_lt_is_Some_2 _ _ Hx) as [o Ho].
  eapply wp_mono; [by apply IsEmpty_spec|].
  wp_intros; intros b st' [-> H1]. unfold elems. by rewrite Ho.
Qed.

Lemma IsEqual_elems (st : state) s t :
  quiet st → live st s → live st t →
  wp (IsEqual s t) st
     (λ b st', b = bool_decide (elems st s = elems st t) ∧ heap st' = heap st).
Proof using range_keys_perm.
  intros Hq Hs Ht.
  destruct (quiet_lookup _ _ Hq Hs) as (os & Hos & Hls & Es).
  destruct (quiet_lookup _ _ Hq Ht) as (ot & Hot & Hlt & Et).
  eapply wp_mono.
  { apply (IsEqual_spec _ _ _ os ot); by apply quiet_readable. }
  wp_intros; intros b st' [-> H1]. split; [|done]. rewrite Es, Et.
  destruct (bool_decide_reflect (dom (m os) = dom (m ot))) as [E|E].
  - apply andb_true_iff. split.
    + apply Z.eqb_eq. f_equal. by rewrite <- !(size_dom (D := gset T)), E.
    + apply bool_decide_eq_true. by rewrite E.
  - apply not_true_is_false. intros [Hsz Hsub]%andb_true_iff. apply E.
    apply Z.eqb_eq, Nat2Z.inj in Hsz. apply bool_decide_eq_true in Hsub.
    symmetry. apply set_subseteq_size_eq; [done|]. rewrite !size_dom. lia.
Qed.

Lemma Union_grows (st : state) set1 set2 sets :
  quiet st → live st set1 → live st set2 → Forall (live st) sets →
  wp (Union set1 set2 sets) st
     (λ u st',
        grows st st' ∧ ¬ live st u ∧ live st' u ∧
        dyn u = copy_dyn (dyn set1) ∧
        elems st' u =
          elems st set1 ∪ elems st set2 ∪ ⋃ (elems st <$> sets)).
Proof using range_keys_perm.
  intros Hq H1 H2 Hs. eapply wp_mono; [by apply Union_spec|].
  wp_intros; intros u st' (-> & mp & Hd & Hh). repeat split.
  - by eapply grows_snoc.
  - unfold live. simpl. lia.
  - unfold live. rewrite Hh, length_app. simpl. lia.
  - by rewrite (elems_new st st' _ mp).
Qed.

Lemma Difference_grows (st : state) set1 set2 sets :
  quiet st → live st set1 → live st set2 → Forall (live st) sets →
  wp (Difference set1 set2 sets) st
     (λ u st',
        grows st st' ∧ ¬ live st u ∧ live st' u ∧
        dyn u = copy_dyn (dyn set1) ∧
        elems st' u =
          elems st set1 ∖ (elems st set2 ∪ ⋃ (elems st <$> sets))).
Proof using range_keys_perm.
  intros Hq H1 H2 Hs. eapply wp_mono; [by apply Difference_spec|].
  wp_intros; intros u st' (-> & mp & Hd & Hh). repeat split.
  - by eapply grows_snoc.
  - unfold live. simpl. lia.
  - unfold live. rewrite Hh, length_app. simpl. lia.
  - by rewrite (elems_new st st' _ mp).
Qed.

Lemma Intersection_grows (st : state) set1 set2 sets :
  quiet st → live st set1 → live st set2 → Forall (live st) sets →
  wp (Intersection set1 set2 sets) st
     (λ r st',
        grows st st' ∧ ¬ live st r ∧ live st' r ∧
        dyn r = copy_dyn (dyn set1) ∧
        ∀ e, e ∈ elems st' r ↔ in_all st set1 set2 sets e).
Proof using range_keys_perm.
  intros Hq H1 H2 Hs. eapply wp_mono; [by apply Intersection_spec|].
  wp_intros; intros r st' (-> & mA & mR & Hh & HdA & HdR).
  assert (Er : elems st' {| dyn := copy_dyn (dyn set1);
                            ptr := S (length (heap st)) |} = dom mR).
  { unfold elems. simpl. rewrite Hh.
    rewrite (lookup_app_r _ _ (S (length (heap st)))) by lia.
    by replace (S (length (heap st)) - length (heap st))%nat with 1%nat by lia. }
  split; [|split; [|split; [|split; [done|]]]].
  - eexists. split; [done|]. by repeat constructor.
  - unfold live. simpl. lia.
  - unfold live. rewrite Hh, length_app. simpl. lia.
  - intros e. rewrite Er, HdR, elem_of_filter, HdA. split; [tauto|].
    intros Hin. split; [done|]. destruct Hin as [? _]. set_solver.
Qed.

(** C3.  [Intersection] returns a new set whose elements are exactly
    those present in every input.  It allocates two sets: a pool that
    holds the union of the inputs, and the result, which is that union
    less every candidate that some input lacks.  The inputs are as they
    were. *)
Theorem Intersection_of_all_inputs (st : state) (set1 set2 : Set_)
    (sets : list Set_) :
  quiet st → live st set1 → live st set2 → Forall (live st) sets →
  wp (Intersection set1 set2 sets) st
     (λ r st',
        grows st st' ∧ ¬ live st r ∧ live st' r ∧
        (∀ e, e ∈ elems st' r ↔
              e ∈ elems st set1 ∧ e ∈ elems st set2 ∧
              Forall (λ t, e ∈ elems st t) sets) ∧
        ∃ pool,
          ¬ live st pool ∧ live st' pool ∧ ptr pool ≠ ptr r ∧
          elems st' pool =
            elems st set1 ∪ elems st set2 ∪ ⋃ (elems st <$> sets) ∧
          elems st' r =
            filter (in_all st set1 set2 sets) (elems st' pool)).
Proof using range_keys_perm.
  intros Hq H1 H2 Hs. eapply wp_mono; [by apply Intersection_spec|].
  wp_intros; intros r st' (-> & mA & mR & Hh & HdA & HdR).
  assert (Er : elems st' {| dyn := copy_dyn (dyn set1);
                            ptr := S (length (heap st)) |} = dom mR).
  { unfold elems. simpl. rewrite Hh.
    rewrite (lookup_app_r _ _ (S (length (heap st)))) by lia.
    by replace (S (length (heap st)) - length (heap st))%nat with 1%nat by lia. }
  assert (Ea : elems st' {| dyn := copy_dyn (dyn set1);
                            ptr := length (heap st) |} = dom mA).
  { unfold elems. simpl. rewrite Hh. by rewrite list_lookup_middle. }
  split; [|split; [|split; [|split]]].
  - eexists. split; [done|]. by repeat constructor.
  - unfold live. simpl. lia.
  - unfold live. rewrite Hh, length_app. simpl. lia.
  - intros e. rewrite Er, HdR, elem_of_filter, HdA. fold (in_all st set1 set2 sets e).
    split; [tauto|].
    intros Hin. split; [done|]. destruct Hin as [? _]. set_solver.
  - exists {| dyn := copy_dyn (dyn set1); ptr := length (heap st) |}.
    split; [unfold live; simpl; lia|].
    split; [unfold live; rewrite Hh, length_app; simpl; lia|].
    split; [simpl; lia|]. by rewrite Er, Ea.
Qed.

(** C4.  [Size(Union(a,b))] is [Size(a) + Size(b) - Size(Intersection(a,b))],
    and [Union(a,b)] has every element of [a] and every element of [b]. *)
Theorem Union_size_and_inputs (st : state) (a b : Set_) :
  quiet st → live st a → live st b →
  wp (union_sizes a b) st
     (λ '(su, sa, sb, si) _, su = sa + sb - si) ∧
  wp (Union a b []) st
     (λ u st', elems st a ⊆ elems st' u ∧ elems st b ⊆ elems st' u).
Proof using range_keys_perm.
  intros Hq Ha Hb. split.
  - unfold union_sizes.
    eapply wp_seq; [by apply Union_grows|].
    wp_intros; intros u st1 (G1 & Hnu & Hu & _ & Eu).
    pose proof (grows_quiet _ _ Hq G1) as Hq1.
    pose proof (grows_live _ _ _ Ha G1) as Ha1.
    pose proof (grows_live _ _ _ Hb G1) as Hb1.
    eapply wp_seq; [by apply Intersection_grows|].
    wp_intros; intros i st2 (G2 & Hni & Hi & _ & Ei).
    pose proof (grows_quiet _ _ Hq1 G2) as Hq2.
    assert (EI : elems st2 i = elems st a ∩ elems st b).
    { apply set_eq. intros e. rewrite Ei. unfold in_all.
      rewrite !(grows_elems st st1) by done. rewrite elem_of_intersection.
      split; [tauto|]. intros [??]. by repeat split. }
    assert (EU : elems st2 u = elems st a ∪ elems st b).
    { rewrite (grows_elems st1 st2) by done. rewrite Eu. simpl. set_solver. }
    assert (EA : elems st2 a = elems st a).
    { rewrite (grows_elems st1 st2), (grows_elems st st1); done. }
    assert (EB : elems st2 b = elems st b).
    { rewrite (grows_elems st1 st2), (grows_elems st st1); done. }
    pose proof (grows_live _ _ _ Hu G2) as Hu2.
    pose proof (grows_live _ _ _ Ha1 G2) as Ha2.
    pose proof (grows_live _ _ _ Hb1 G2) as Hb2.
    eapply wp_seq; [by apply Size_elems|].
    wp_intros; intros su st3 [-> H3]. apply grows_same in H3.
    eapply wp_seq.
    { apply Size_elems; [by eapply grows_quiet|by eapply grows_live]. }
    wp_intros; intros sa st4 [-> H4]. apply grows_same in H4.
    pose proof (grows_trans _ _ _ H3 H4) as G4.
    eapply wp_seq.
    { apply Size_elems; [by eapply grows_quiet|by eapply grows_live]. }
    wp_intros; intros sb st5 [-> H5]. apply grows_same in H5.
    pose proof (grows_trans _ _ _ G4 H5) as G5.
    eapply wp_seq.
    { apply Size_elems; [by eapply grows_quiet|by eapply grows_live]. }
    wp_intros; intros si st6 [-> H6].
    apply wp_ret.
    rewrite (grows_elems st2 st3), (grows_elems st2 st4), (grows_elems st2 st5)
      by done.
    rewrite EU, EA, EB, EI.
    rewrite size_union_alt.
    rewrite (size_difference_alt (elems st b) (elems st a)).
    assert (size (elems st b ∩ elems st a) ≤ size (elems st b))%nat
      by (apply subseteq_size; set_solver).
    replace (elems st a ∩ elems st b) with (elems st b ∩ elems st a) by set_solver.
    lia.
  - eapply wp_mono; [by apply Union_grows|].
    wp_intros; intros u st1 (G1 & Hnu & Hu & _ & Eu). rewrite Eu. set_solver.
Qed.

Lemma SymmetricDifference_grows (st : state) (a b : Set_) :
  quiet st → live st a → live st b →
  wp (SymmetricDifference a b) st
     (λ d st',
        grows st st' ∧ ¬ live st d ∧ live st' d ∧
        elems st' d =
          (elems st a ∖ elems st b) ∪ (elems st b ∖ elems st a)).
Proof using range_keys_perm.
  intros Hq Ha Hb. unfold SymmetricDifference.
  eapply wp_seq; [by apply Difference_grows|].
  wp_intros; intros u st1 (G1 & Hnu & Hu & _ & Eu).
  pose proof (grows_quiet _ _ Hq G1) as Hq1.
  eapply wp_seq.
  { apply Difference_grows; [done|by eapply grows_live..|done]. }
  wp_intros; intros v st2 (G2 & Hnv & Hv & _ & Ev).
  rewrite !(grows_elems st st1) in Ev by done.
  pose proof (grows_quiet _ _ Hq1 G2) as Hq2.
  pose proof (grows_trans _ _ _ G1 G2) as G02.
  eapply wp_mono.
  { apply Union_grows; [done|by eapply grows_live|done..]. }
  wp_intros; intros w st3 (G3 & Hnw & Hw & _ & Ew).
  split; [by eapply grows_trans|]. split; [|split; [done|]].
  - intros Hl. apply Hnw. by eapply grows_live.
  - rewrite Ew, (grows_elems st1 st2), Eu, Ev by done. simpl. set_solver.
Qed.

(** C5.  [SymmetricDifference(a,b)] has the elements of
    [Union(Difference(a,b), Difference(b,a))], and it is empty exactly
    when [a.IsEqual(b)]. *)
Theorem SymmetricDifference_laws (st : state) (a b : Set_) :
  quiet st → live st a → live st b →
  wp (symdiff_checks a b) st
     (λ '(same, empty, equal) _, same = true ∧ empty = equal).
Proof using range_keys_perm.
  intros Hq Ha Hb. unfold symdiff_checks.
  eapply wp_seq; [by apply SymmetricDifference_grows|].
  wp_intros; intros d st1 (G1 & Hnd & Hd & Ed).
  pose proof (grows_quiet _ _ Hq G1) as Hq1.
  pose proof (grows_live _ _ _ Ha G1) as Ha1.
  pose proof (grows_live _ _ _ Hb G1) as Hb1.
  eapply wp_seq; [by apply Difference_grows|].
  wp_intros; intros u st2 (G2 & Hnu & Hu & _ & Eu).
  rewrite !(grows_elems st st1) in Eu by done.
  pose proof (grows_quiet _ _ Hq1 G2) as Hq2.
  pose proof (grows_live _ _ _ Ha1 G2) as Ha2.
  pose proof (grows_live _ _ _ Hb1 G2) as Hb2.
  eapply wp_seq; [by apply Difference_grows|].
  wp_intros; intros v st3 (G3 & Hnv & Hv & _ & Ev).
  rewrite !(grows_elems st1 st2), !(grows_elems st st1) in Ev by done.
  pose proof (grows_quiet _ _ Hq2 G3) as Hq3.
  pose proof (grows_live _ _ _ Hu G3) as Hu3.
  eapply wp_seq; [by apply Union_grows|].
  wp_intros; intros w st4 (G4 & Hnw & Hw & _ & Ew).
  rewrite (grows_elems st2 st3), Eu, Ev in Ew by done.
  pose proof (grows_quiet _ _ Hq3 G4) as Hq4.
  pose proof (grows_trans _ _ _ G2 (grows_trans _ _ _ G3 G4)) as G14.
  pose proof (grows_live _ _ _ Hd G14) as Hd4.
  pose proof (grows_live _ _ _ Ha1 G14) as Ha4.
  pose proof (grows_live _ _ _ Hb1 G14) as Hb4.
  assert (Ed4 : elems st4 d =
                (elems st a ∖ elems st b) ∪ (elems st b ∖ elems st a))
    by by rewrite (grows_elems st1 st4).
  assert (Ea4 : elems st4 a = elems st a)
    by by rewrite (grows_elems st1 st4), (grows_elems st st1).
  assert (Eb4 : elems st4 b = elems st b)
    by by rewrite (grows_elems st1 st4), (grows_elems st st1).
  eapply wp_seq; [by apply IsEqual_elems|].
  wp_intros; intros same st5 [-> H5]. apply grows_same in H5.
  eapply wp_seq; [apply IsEmpty_elems; by eapply grows_live|].
  wp_intros; intros empty st6 [-> H6]. apply grows_same in H6.
  pose proof (grows_trans _ _ _ H5 H6) as G6.
  eapply wp_seq.
  { apply IsEqual_elems; [by eapply grows_quiet|by eapply grows_live..]. }
  wp_intros; intros equal st7 [-> H7].
  apply wp_ret.
  rewrite (grows_elems st4 st5), !(grows_elems st4 st6) by done.
  rewrite Ed4, Ea4, Eb4, Ew. split.
  - apply bool_decide_eq_true. simpl. set_solver.
  - apply bool_decide_ext. split.
    + intros Hemp. apply set_eq. intros e.
      destruct (decide (e ∈ elems st a)), (decide (e ∈ elems st b)); set_solver.
    + intros ->. set_solver.
Qed.

(** ** Calls that change their receiver *)

(** A call that changes its receiver touches no other object, and
    leaves every mutex free. *)
Lemma mutate_frame (st : state) (x : Set_) (mu : mutation) :
  quiet st → live st x → applicable st x mu →
  wp (mutate x mu) st
     (λ _ st', ∃ mp, heap st' = <[ptr x := {| m := mp; l := unlocked |}]> (heap st)).
Proof using range_keys_perm.
  intros Hq Hx Hmu. destruct (quiet_lookup _ _ Hq Hx) as (o & Ho & Hl & E).
  assert (Hset : ∀ mp, set_m mp o = {| m := mp; l := unlocked |}).
  { intros mp. unfold set_m. by rewrite Hl. }
  pose proof (quiet_writable _ _ _ Ho Hl) as Hw.
  destruct mu as [items|items| | |t|t]; simpl.
  - eapply wp_mono; [by apply Add_spec|].
    intros ? st' H1. simpl in H1. eexists. by rewrite H1, Hset.
  - eapply wp_mono; [by apply Remove_spec|].
    intros ? st' H1. simpl in H1. eexists. by rewrite H1, Hset.
  - eapply wp_seq; [by apply Pop_spec|].
    wp_intros; intros r st' [(Hm & -> & H1)|(item & -> & Hi & H1)]; apply wp_ret.
    + exists (m o). by rewrite H1, <- Hset, set_m_id, list_insert_id.
    + eexists. by rewrite H1, Hset.
  - eapply wp_mono; [by apply Clear_spec|].
    intros ? st' H1. simpl in H1. eexists. by rewrite H1, Hset.
  - destruct Hmu as [Ht Hne].
    destruct (quiet_lookup _ _ Hq Ht) as (ot & Hot & Hlt & Et).
    eapply wp_mono.
    { apply (Merge_spec _ _ _ o ot); [done|by apply quiet_readable|done]. }
    wp_intros; intros ? st' (mp & _ & H1). exists mp. by rewrite H1, Hset.
  - simpl in Hmu.
    destruct (quiet_lookup _ _ Hq Hmu) as (ot & Hot & Hlt & Et).
    eapply wp_mono.
    { apply (Separate_spec _ _ _ o ot); [done|by apply quiet_readable]. }
    wp_intros; intros ? st' (mp & _ & H1). exists mp. by rewrite H1, Hset.
Qed.

Lemma insert_unlocked_quiet (st st' : state) p mp :
  quiet st → heap st' = <[p := {| m := mp; l := unlocked |}]> (heap st) →
  quiet st' ∧ length (heap st') = length (heap st) ∧
  ∀ y, ptr y ≠ p → elems st' y = elems st y.
Proof.
  intros Hq E. split; [|split].
  - unfold quiet. rewrite E.
    destruct (decide (p < length (heap st))%nat) as [Hp|Hp].
    + by apply Forall_insert.
    + rewrite list_insert_ge by lia. done.
  - by rewrite E, length_insert.
  - intros y Hy. unfold elems. by rewrite E, list_lookup_insert_ne.
Qed.

(** C6.  A copy is [IsEqual] to the original, both ways, when it is
    made.  From then on, after any sequence of [Add], [Remove], [Pop],
    [Clear], [Merge] and [Separate] calls on the two, one more such call
    on the copy leaves the elements of the original as they are, and one
    on the original leaves those of the copy. *)
Theorem Copy_equal_and_independent (st : state) (s : Set_) :
  quiet st → live st s →
  wp (copy_checks s) st
     (λ '(c, e1, e2) st1,
        e1 = true ∧ e2 = true ∧
        ∀ script : list (Set_ * mutation),
          Forall (λ xm, (xm.1 = c ∨ xm.1 = s) ∧ applicable st1 xm.1 xm.2)
                 script →
          wp (for_each (λ xm, mutate xm.1 xm.2) script) st1
             (λ _ st2,
                ∀ mu,
                  (applicable st2 c mu →
                   wp (mutate c mu) st2
                      (λ _ st3, elems st3 s = elems st2 s)) ∧
                  (applicable st2 s mu →
                   wp (mutate s mu) st2
                      (λ _ st3, elems st3 c = elems st2 c)))).
Proof using range_keys_perm.
  intros Hq Hs. unfold copy_checks.
  destruct (quiet_lookup _ _ Hq Hs) as (o & Ho & Hl & E).
  eapply wp_seq; [by apply Copy_spec|].
  wp_intros; intros c st1 [-> H1].
  set (c := {| dyn := copy_dyn (dyn s); ptr := length (heap st) |}).
  pose proof (grows_snoc _ _ _ H1) as G1.
  pose proof (grows_quiet _ _ Hq G1) as Hq1.
  pose proof (grows_live _ _ _ Hs G1) as Hs1.
  assert (Hc1 : live st1 c).
  { unfold live. rewrite H1, length_app. simpl. lia. }
  assert (Ec : elems st1 c = elems st1 s).
  { unfold c. rewrite (elems_new st st1 _ (m o)) by done.
    by rewrite (grows_elems st st1). }
  assert (Hne : ptr c ≠ ptr s) by (unfold live in Hs; simpl; lia).
  eapply wp_seq; [by apply IsEqual_elems|].
  wp_intros; intros e1 st2 [-> H2].
  eapply wp_seq.
  { apply IsEqual_elems; [by eapply grows_quiet, grows_same|
                          by eapply grows_live, grows_same..]. }
  wp_intros; intros e2 st3 [-> H3].
  apply wp_ret. rewrite H2 in H3.
  assert (Es3 : ∀ y, elems st2 y = elems st1 y).
  { intros y. unfold elems. by rewrite H2. }
  rewrite !Es3, Ec. split; [by apply bool_decide_eq_true|].
  split; [by apply bool_decide_eq_true|].
  intros script Hscript.
  assert (Happ : ∀ (sta stb : state) x mu,
            length (heap stb) = length (heap sta) →
            applicable sta x mu → applicable stb x mu).
  { intros sta stb x mu Hlen. unfold applicable, live.
    destruct mu; try done; by rewrite Hlen. }
  assert (Hlive : ∀ (stb : state) x,
            length (heap stb) = length (heap st1) → live st1 x → live stb x).
  { intros stb x Hlen. unfold live. by rewrite Hlen. }
  eapply wp_mono.
  { apply (for_each_inv _
      (λ _ st', quiet st' ∧ length (heap st') = length (heap st3))).
    - split; [|done]. by eapply grows_quiet, grows_same.
    - intros pre [x mu] st4 Hin [Hq4 Hlen4]. simpl.
      rewrite Forall_forall in Hscript.
      destruct (Hscript _ Hin) as [Hx Hmu]. simpl in Hx, Hmu.
      rewrite H3 in Hlen4.
      eapply wp_mono.
      + apply mutate_frame; [done| |].
        * apply Hlive; [done|]. by destruct Hx as [-> | ->].
        * eapply Happ; [|exact Hmu]. by rewrite Hlen4, H3.
      + wp_intros; intros ? st5 (mp & H5).
        destruct (insert_unlocked_quiet _ _ _ _ Hq4 H5) as (Hq5 & Hlen5 & _).
        split; [done|]. by rewrite Hlen5, Hlen4, H3. }
  wp_intros; intros ? st4 [Hq4 Hlen4]. rewrite H3 in Hlen4.
  intros mu. split; intros Hmu.
  - eapply wp_mono; [apply mutate_frame; [done|by apply Hlive|done]|].
    wp_intros; intros ? st5 (mp & H5).
    destruct (insert_unlocked_quiet _ _ _ _ Hq4 H5) as (_ & _ & Hfr).
    apply Hfr. congruence.
  - eapply wp_mono; [apply mutate_frame; [done|by apply Hlive|done]|].
    wp_intros; intros ? st5 (mp & H5).
    destruct (insert_unlocked_quiet _ _ _ _ Hq4 H5) as (_ & _ & Hfr).
    by apply Hfr.
Qed.

(** ** Traces *)

Lemma bind_Ret_inv {A B} (c : M A) (k : A → M B) (st : state) b st'' :
  bind c k st = Ret b st'' → ∃ a st', c st = Ret a st' ∧ k a st' = Ret b st''.
Proof. unfold bind. destruct (c st) as [a st'| |]; [eauto|done..]. Qed.

Lemma extends_refl (st : state) : extends st st.
Proof. exists []. by rewrite app_nil_r. Qed.

Lemma extends_trans (st1 st2 st3 : state) :
  extends st1 st2 → extends st2 st3 → extends st1 st3.
Proof. intros [e1 H1] [e2 H2]. exists (e1 ++ e2). by rewrite H2, H1, app_assoc. Qed.

Lemma store_m_extends (st : state) p f a st' :
  store_m p f st = Ret a st' → extends st st'.
Proof.
  unfold store_m, bind, emit, deref, assign. simpl.
  destruct (heap st !! p); [|done]. intros [= _ <-]. by eexists.
Qed.

Lemma Lock_extends (st : state) p a st' : Lock p st = Ret a st' → extends st st'.
Proof.
  unfold Lock, bind, emit, deref, assign.
  destruct (heap st !! p) as [o|]; [|done].
  destruct (writer (l o) || negb (Nat.eqb (readers (l o)) 0)); [done|].
  intros [= _ <-]. by eexists.
Qed.

Lemma Unlock_extends (st : state) p a st' :
  Unlock p st = Ret a st' → extends st st'.
Proof.
  unfold Unlock, bind, emit, deref, assign.
  destruct (heap st !! p) as [o|]; [|done].
  destruct (writer (l o)); [|done].
  intros [= _ <-]. by eexists.
Qed.

Lemma for_each_extends {A} (body : A → M ()) xs (st : state) a st' :
  (∀ x st1 a1 st2, body x st1 = Ret a1 st2 → extends st1 st2) →
  for_each body xs st = Ret a st' → extends st st'.
Proof.
  intros Hbody. revert st. induction xs as [|x xs IH]; intros st; simpl.
  - intros [= _ <-]. apply extends_refl.
  - intros (a1 & st1 & H1 & H2)%bind_Ret_inv.
    eapply extends_trans; [by eapply Hbody|by apply IH].
Qed.

Lemma SetTS_Add_extends (st : state) s (items : list T) a st' :
  SetTS_Add s items st = Ret a st' → extends st st'.
Proof.
  unfold SetTS_Add. destruct (Nat.eqb (length items) 0).
  - intros [= _ <-]. apply extends_refl.
  - intros (a1 & st1 & H1 & (a2 & st2 & H2 & H3)%bind_Ret_inv)%bind_Ret_inv.
    eapply extends_trans; [by eapply Lock_extends|].
    eapply extends_trans; [|by eapply Unlock_extends].
    eapply for_each_extends; [|exact H2].
    intros x sta a' stb. apply store_m_extends.
Qed.

(** The first thing [SetTS.Copy] does to the memory is to read the map
    of its receiver, and it has taken no lock: the trace of every call
    breaks the discipline. *)
Lemma SetTS_Copy_unguarded (st : state) s o ts :
  heap st !! s = Some o → s ∈ ts →
  ∃ u st' evs,
    SetTS_Copy s st = Ret u st' ∧
    events_of (SetTS_Copy s) st = EvLoad s :: evs ∧
    guarded ts [] [] (events_of (SetTS_Copy s) st) = false.
Proof using range_keys_perm.
  intros Ho Hs.
  destruct (SetTS_Copy_spec st s o Ho) as (u & st' & E & _).
  assert (∃ evs, trace st' = trace st ++ EvLoad s :: evs) as [evs Hevs].
  { revert E. unfold SetTS_Copy at 1, newTS.
    intros (u1 & st1 & H1 & (keys & st2 & H2 & H3)%bind_Ret_inv)%bind_Ret_inv.
    apply bind_Ret_inv in H3 as ([] & st3 & H3 & H4).
    inversion H4; subst; clear H4.
    unfold bind, alloc, ret in H1. inversion H1; subst; clear H1.
    unfold range_m, load_m, bind, emit, deref, ret in H2. simpl in H2.
    rewrite lookup_app_l_Some with (x := o) in H2 by done.
    inversion H2; subst; clear H2.
    assert (extends {| heap := heap st ++ [{| m := ∅; l := unlocked |}];
                       trace := trace st ++ [EvLoad s] |} st') as [evs Hevs].
    { eapply for_each_extends; [|exact H3].
      intros x sta a' stb. apply SetTS_Add_extends. }
    exists evs. simpl in Hevs. by rewrite Hevs, <- app_assoc. }
  exists u, st', evs. split; [done|].
  assert (Eev : events_of (SetTS_Copy s) st = EvLoad s :: evs).
  { unfold events_of. rewrite E, Hevs. by rewrite drop_app_length. }
  split; [done|]. rewrite Eev. simpl.
  by rewrite (bool_decide_eq_true_2 _ Hs).
Qed.

(** [Merge] given its own receiver as a [SetTS] never returns. *)
Lemma SetTS_Merge_self_blocks (st : state) x :
  quiet st → live st x → dyn x = SetTS → Merge x x st = Blocked.
Proof.
  intros Hq Hx Hd. destruct (quiet_lookup _ _ Hq Hx) as (o & Ho & Hl & _).
  unfold Merge. rewrite Hd. unfold SetTS_Merge.
  unfold bind at 1. unfold Lock, bind, deref, assign, emit. rewrite Ho, Hl. simpl.
  unfold Each. rewrite Hd. unfold SetTS_Each, RLock, bind, deref. simpl.
  rewrite list_lookup_insert_eq by by eapply lookup_lt_Some. done.
Qed.

End Proofs.

(** * The properties on the small heap *)

Lemma Has_every_item_witness :
  quiet two_sets ∧ live two_sets setA ∧
  wp (Has setA [1; 3]%nat) two_sets
     (λ b st',
        ([1; 3]%nat = [] → b = false) ∧
        ([1; 3]%nat ≠ [] →
           (b = true ↔ ∀ e, e ∈ [1; 3]%nat → e ∈ elems two_sets setA)) ∧
        heap st' = heap two_sets).
Proof.
  assert (Hq : quiet two_sets) by (unfold quiet; simpl; repeat constructor).
  assert (Hl : live two_sets setA) by (unfold live; simpl; lia).
  split; [exact Hq|]. split; [exact Hl|].
  exact (Has_every_item two_sets setA [1; 3]%nat Hq Hl).
Defined.

Lemma Pop_some_element_witness :
  quiet two_sets ∧ live two_sets setA ∧
  wp (Pop (ZeroT := nat_zero) (OrderT := nat_order) setA) two_sets
     (λ r st',
        (elems two_sets setA = ∅ →
           r = (nat_zero, false) ∧ heap st' = heap two_sets) ∧
        (elems two_sets setA ≠ ∅ →
           ∃ item, r = (item, true) ∧ item ∈ elems two_sets setA ∧
                   elems st' setA = elems two_sets setA ∖ {[item]} ∧
                   ∀ p, p ≠ ptr setA → heap st' !! p = heap two_sets !! p)).
Proof.
  assert (Hq : quiet two_sets) by (unfold quiet; simpl; repeat constructor).
  assert (Hl : live two_sets setA) by (unfold live; simpl; lia).
  split; [exact Hq|]. split; [exact Hl|].
  exact (Pop_some_element (ZeroT := nat_zero) (OrderT := nat_order)
           (λ n mp, reflexivity _) two_sets setA Hq Hl).
Defined.

Lemma IsEqual_same_elements_witness :
  quiet two_sets ∧ live two_sets setA ∧ live two_sets setB ∧
  wp (IsEqual (OrderT := nat_order) setA setB) two_sets
     (λ b st',
        (b = true ↔
           size (elems two_sets setA) = size (elems two_sets setB) ∧
           ∀ e, e ∈ elems two_sets setB → e ∈ elems two_sets setA) ∧
        (b = true ↔ elems two_sets setA = elems two_sets setB) ∧
        heap st' = heap two_sets).
Proof.
  assert (Hq : quiet two_sets) by (unfold quiet; simpl; repeat constructor).
  assert (Ha : live two_sets setA) by (unfold live; simpl; lia).
  assert (Hb : live two_sets setB) by (unfold live; simpl; lia).
  split; [exact Hq|]. split; [exact Ha|]. split; [exact Hb|].
  exact (IsEqual_same_elements (OrderT := nat_order)
           (λ n mp, reflexivity _) two_sets setA setB Hq Ha Hb).
Defined.

Lemma Intersection_of_all_inputs_witness :
  quiet two_sets ∧ live two_sets setA ∧ live two_sets setB ∧
  Forall (live two_sets) [setA] ∧
  wp (Intersection (OrderT := nat_order) setA setB [setA]) two_sets
     (λ r st',
        grows two_sets st' ∧ ¬ live two_sets r ∧ live st' r ∧
        (∀ e, e ∈ elems st' r ↔
              e ∈ elems two_sets setA ∧ e ∈ elems two_sets setB ∧
              Forall (λ t, e ∈ elems two_sets t) [setA]) ∧
        ∃ pool,
          ¬ live two_sets pool ∧ live st' pool ∧ ptr pool ≠ ptr r ∧
          elems st' pool =
            elems two_sets setA ∪ elems two_sets setB ∪
            ⋃ (elems two_sets <$> [setA]) ∧
          elems st' r =
            filter (in_all two_sets setA setB [setA]) (elems st' pool)).
Proof.
  assert (Hq : quiet two_sets) by (unfold quiet; simpl; repeat constructor).
  assert (Ha : live two_sets setA) by (unfold live; simpl; lia).
  assert (Hb : live two_sets setB) by (unfold live; simpl; lia).
  assert (Hs : Forall (live two_sets) [setA]) by (repeat constructor; exact Ha).
  split; [exact Hq|]. split; [exact Ha|]. split; [exact Hb|]. split; [exact Hs|].
  exact (Intersection_of_all_inputs (OrderT := nat_order)
           (λ n mp, reflexivity _) two_sets setA setB [setA] Hq Ha Hb Hs).
Defined.

Lemma Union_size_and_inputs_witness :
  quiet two_sets ∧ live two_sets setA ∧ live two_sets setB ∧
  wp (union_sizes (OrderT := nat_order) setA setB) two_sets
     (λ '(su, sa, sb, si) _, su = sa + sb - si) ∧
  wp (Union (OrderT := nat_order) setA setB []) two_sets
     (λ u st', elems two_sets setA ⊆ elems st' u ∧
               elems two_sets setB ⊆ elems st' u).
Proof.
  assert (Hq : quiet two_sets) by (unfold quiet; simpl; repeat constructor).
  assert (Ha : live two_sets setA) by (unfold live; simpl; lia).
  assert (Hb : live two_sets setB) by (unfold live; simpl; lia).
  split; [exact Hq|]. split; [exact Ha|]. split; [exact Hb|].
  exact (Union_size_and_inputs (OrderT := nat_order)
           (λ n mp, reflexivity _) two_sets setA setB Hq Ha Hb).
Defined.

Lemma SymmetricDifference_laws_witness :
  quiet two_sets ∧ live two_sets setA ∧ live two_sets setB ∧
  wp (symdiff_checks (OrderT := nat_order) setA setB) two_sets
     (λ '(same, empty, equal) _, same = true ∧ empty = equal).
Proof.
  assert (Hq : quiet two_sets) by (unfold quiet; simpl; repeat constructor).
  assert (Ha : live two_sets setA) by (unfold live; simpl; lia).
  assert (Hb : live two_sets setB) by (unfold live; simpl; lia).
  split; [exact Hq|]. split; [exact Ha|]. split; [exact Hb|].
  exact (SymmetricDifference_laws (OrderT := nat_order)
           (λ n mp, reflexivity _) two_sets setA setB Hq Ha Hb).
Defined.

Lemma Copy_equal_and_independent_witness :
  quiet two_sets ∧ live two_sets setA ∧
  wp (copy_checks (OrderT := nat_order) setA) two_sets
     (λ '(c, e1, e2) st1,
        e1 = true ∧ e2 = true ∧
        ∀ script : list (Set_ * mutation),
          Forall (λ xm, (xm.1 = c ∨ xm.1 = setA) ∧ applicable st1 xm.1 xm.2)
                 script →
          wp (for_each (λ xm, mutate (ZeroT := nat_zero) (OrderT := nat_order)
                                xm.1 xm.2) script) st1
             (λ _ st2,
                ∀ mu,
                  (applicable st2 c mu →
                   wp (mutate (ZeroT := nat_zero) (OrderT := nat_order) c mu) st2
                      (λ _ st3, elems st3 setA = elems st2 setA)) ∧
                  (applicable st2 setA mu →
                   wp (mutate (ZeroT := nat_zero) (OrderT := nat_order) setA mu)
                      st2
                      (λ _ st3, elems st3 c = elems st2 c)))).
Proof.
  assert (Hq : quiet two_sets) by (unfold quiet; simpl; repeat constructor).
  assert (Ha : live two_sets setA) by (unfold live; simpl; lia).
  split; [exact Hq|]. split; [exact Ha|].
  exact (Copy_equal_and_independent (ZeroT := nat_zero) (OrderT := nat_order)
           (λ n mp, reflexivity _) two_sets setA Hq Ha).
Defined.

(** C9.  The locking discipline of the thread-safe variant does not
    hold for [Copy]: on the thread-safe set [{1, 2, 3}] it reads the map
    of its receiver (address 0) before any mutex is touched, so its
    trace is not guarded, whereas [List], which runs the same loop,
    brackets its reads with the shared lock. *)
Theorem SetTS_Copy_reads_without_lock :
  events_of (Copy (OrderT := nat_order) setA) two_sets =
    [EvLoad 0; EvLock 2; EvStore 2; EvUnlock 2; EvLock 2; EvStore 2;
     EvUnlock 2; EvLock 2; EvStore 2; EvUnlock 2] ∧
  guarded [0; 2]%nat [] []
    (events_of (Copy (OrderT := nat_order) setA) two_sets) = false ∧
  events_of (List (OrderT := nat_order) setA) two_sets =
    [EvRLock 0; EvLoad 0; EvLoad 0; EvRUnlock 0] ∧
  guarded [0; 2]%nat [] []
    (events_of (List (OrderT := nat_order) setA) two_sets) = true.
Proof. by vm_compute. Qed.

(** The methods that [SetTS] inherits from [set] without declaring them
    take no lock either. *)
Example SetTS_IsEmpty_reads_without_lock :
  events_of (IsEmpty setA) two_sets = [EvLoad 0] ∧
  guarded [0]%nat [] [] (events_of (IsEmpty setA) two_sets) = false.
Proof. by vm_compute. Qed.

Example SetTS_Separate_writes_without_lock :
  events_of (Separate (OrderT := nat_order) setA setB) two_sets =
    [EvLoad 1; EvLoad 1; EvStore 0; EvStore 0; EvStore 0] ∧
  guarded [0]%nat [] []
    (events_of (Separate (OrderT := nat_order) setA setB) two_sets) = false.
Proof. by vm_compute. Qed.

Example SetTS_IsSuperset_reads_without_lock :
  events_of (IsSuperset (OrderT := nat_order) setA setB) two_sets =
    [EvLoad 0; EvLoad 1] ∧
  guarded [0]%nat [] []
    (events_of (IsSuperset (OrderT := nat_order) setA setB) two_sets) = false.
Proof. by vm_compute. Qed.

(** The methods that [SetTS] declares with a lock keep the discipline
    on the same heap. *)
Example SetTS_locked_methods_guarded :
  guarded [0]%nat [] [] (events_of (Add setA [7]%nat) two_sets) = true ∧
  guarded [0]%nat [] [] (events_of (Remove setA [1]%nat) two_sets) = true ∧
  guarded [0]%nat [] []
    (events_of (Pop (ZeroT := nat_zero) (OrderT := nat_order) setA) two_sets)
    = true ∧
  guarded [0]%nat [] [] (events_of (Has setA [1; 9]%nat) two_sets) = true ∧
  guarded [0]%nat [] [] (events_of (Size setA) two_sets) = true ∧
  guarded [0]%nat [] [] (events_of (Clear setA) two_sets) = true ∧
  guarded [0]%nat [] []
    (events_of (IsEqual (OrderT := nat_order) setA setB) two_sets) = true ∧
  guarded [0]%nat [] []
    (events_of (IsSubset (OrderT := nat_order) setA setB) two_sets) = true ∧
  guarded [0]%nat [] []
    (events_of (Merge (OrderT := nat_order) setA setB) two_sets) = true.
Proof. by vm_compute. Qed.
